(** * laser_slam: the incremental estimator

    A shallow embedding of [laser_slam/src/incremental_estimator.cpp].

    The estimator owns one iSAM2 smoother, a vector of laser tracks, a loop
    closure noise model, an ICP object and the index of the one prior factor
    that the next [estimateAndRemove] asks the smoother to drop.  Every member
    function is embedded as a computation over that object which also records,
    in order, the calls it makes on the shared members (mutex, smoother, track
    vector, factor index), so that statements about the order and the number
    of such calls can be read off the recorded events. *)

From Stdlib Require Import ZArith QArith.
From stdpp Require Import base option list gmap strings.

Local Open Scope Z_scope.

(** ** Scalars *)

(** [curves::Time]: signed 64-bit nanoseconds.  The estimator only compares
    times, it never computes with them. *)
Abbreviation Time := Z.

(** Modelled from the spec: a pose variable of the global estimate is
    identified by the track it belongs to and its time (the key type is
    declared outside [incremental_estimator.cpp]). *)
Abbreviation Key := (nat * Time)%type.

(** Symbolic pose expressions ([gtsam::Expression<SE3>]) as far as the
    estimator builds them: leaves handed out by a track, [kindr::minimal::inverse]
    and [kindr::minimal::compose]. *)
Inductive Expression : Type :=
| Leaf (k : Key)
| Inverse (e : Expression)
| Compose (e1 e2 : Expression).

(** [gtsam::noiseModel]: a diagonal model given by its sigmas, possibly wrapped
    in a robust model with a Cauchy m-estimator. *)
Inductive MEstimator : Type :=
| Cauchy (k : Q).

Inductive NoiseModel : Type :=
| Diagonal_Sigmas (sigmas : list Q)
| Robust_Create (robust : MEstimator) (noise : NoiseModel).

(** [gtsam::ISAM2Params], the two fields the constructor sets. *)
Record ISAM2Params : Type := mkISAM2Params {
  relinearizeSkip : Z;
  relinearizeThreshold : Q
}.

(** [gtsam::ISAM2Result], the field [registerPrior] reads. *)
Record ISAM2Result : Type := mkISAM2Result {
  newFactorsIndices : list nat
}.

(** Modelled from the spec: the declaration of the parameter structures is not
    in [incremental_estimator.cpp].  The fields read by the source are kept
    under their source names; [relinearize_skip] and [relinearize_threshold]
    are the two further construction-time options the specification lists. *)
Record LaserTrackParams : Type := mkLaserTrackParams {
  icp_configuration_file : string
}.

Record EstimatorParams : Type := mkEstimatorParams {
  loop_closure_noise_model : list Q;
  add_m_estimator_on_loop_closures : bool;
  do_icp_step_on_loop_closures : bool;
  loop_closures_sub_maps_radius : Z;
  laser_track_params : LaserTrackParams;
  relinearize_skip : Z;
  relinearize_threshold : Q
}.

(** The ICP object: how it was configured by the constructor. *)
Inductive ICP : Type :=
| loadFromYaml (contents : string)
| setDefault.

(** How a member function can end: it returns a value, a glog [CHECK] fails
    (the process aborts with a message), a callee throws, or a vector is
    indexed out of range (undefined behaviour in C++). *)
Inductive Outcome (A : Type) : Type :=
| Returned (a : A)
| Fatal (message : string)
| Thrown
| Undefined.

Arguments Returned {A} a.
Arguments Fatal {A} message.
Arguments Thrown {A}.
Arguments Undefined {A}.

Section Estimator.

(** [kindr::minimal::QuatTransformation] and libpointmatcher's point clouds are
    kept abstract: the estimator stores and forwards them only. *)
Context {SE3 DataPoints : Type}.

(** ** Collaborators *)

(** [RelativePose], the loop closure candidate. *)
Record RelativePose : Type := mkRelativePose {
  T_a_b : SE3;
  time_a_ns : Time;
  time_b_ns : Time;
  track_id_a : nat;
  track_id_b : nat
}.

(** [gtsam::ExpressionFactor<SE3>(noise, measured, expression)]. *)
Record ExpressionFactor : Type := mkExpressionFactor {
  factor_noise : NoiseModel;
  factor_measured : SE3;
  factor_expression : Expression
}.

Definition NonlinearFactorGraph : Type := list ExpressionFactor.

(** Modelled from the spec: [LaserTrack] lives in [laser_track.cpp], which is
    not part of this file.  A track has the id of its worker and an ordered,
    time-indexed sequence of poses; it exposes its time bounds, a symbolic
    reference to its pose at a time, and a sink that overwrites its stored
    poses from a global estimate. *)
Record LaserTrack : Type := mkLaserTrack {
  laser_track_id : nat;
  trajectory : list (Time * SE3)
}.

Definition new_LaserTrack (p : LaserTrackParams) (i : nat) : LaserTrack :=
  {| laser_track_id := i; trajectory := [] |}.

Definition getMinTime (t : LaserTrack) : Time :=
  match trajectory t with
  | [] => 0
  | (tm, _) :: _ => tm
  end.

Definition getMaxTime (t : LaserTrack) : Time :=
  match last (trajectory t) with
  | None => 0
  | Some (tm, _) => tm
  end.

Definition getValueExpression (t : LaserTrack) (time_ns : Time) : Expression :=
  Leaf (laser_track_id t, time_ns).

Definition updateFromGTSAMValues (values : gmap Key SE3) (t : LaserTrack) : LaserTrack :=
  {| laser_track_id := laser_track_id t;
     trajectory :=
       (λ p : Time * SE3,
          (p.1, default p.2 (values !! (laser_track_id t, p.1)))) <$> trajectory t |}.

(** What the estimator calls but does not implement: the numerical step of
    the smoother ([relinearize]), [LaserTrack::buildSubMapAroundTime], the
    matcher [icp_.compute] together with the conversions of the initial guess
    to a float matrix and of the solution back to [SE3] ([None] stands for an
    exception thrown by the matcher), and the two operations of kindr that the
    symbolic expressions [Compose] and [Inverse] stand for. *)
Class Collaborators : Type := {
  relinearize :
    ISAM2Params → list (option ExpressionFactor) → gmap Key SE3 → gmap Key SE3;
  buildSubMapAroundTime : LaserTrack → Time → Z → DataPoints;
  icp_compute : ICP → DataPoints → DataPoints → SE3 → option SE3;
  se3_compose : SE3 → SE3 → SE3;
  se3_inverse : SE3 → SE3
}.

Context {collaborators : Collaborators}.

(** Modelled from the spec: the optimizer backend is [gtsam::ISAM2], an
    external library.  It keeps its factors in numbered slots; [update] first
    appends the new factors (reporting the slots they got), then empties the
    slots it is asked to remove, and runs one relinearization step on its
    values; [calculateEstimate] returns the current values.  The numerical
    step itself is the collaborator [relinearize]. *)
Record ISAM2 : Type := mkISAM2 {
  isam2_params : ISAM2Params;
  nonlinearFactors_ : list (option ExpressionFactor);
  theta_ : gmap Key SE3
}.

Definition new_ISAM2 (p : ISAM2Params) : ISAM2 :=
  {| isam2_params := p; nonlinearFactors_ := []; theta_ := ∅ |}.

Definition remove_factors (remove : list nat)
    (slots : list (option ExpressionFactor)) : list (option ExpressionFactor) :=
  foldl (λ acc i, <[i := None]> acc) slots remove.

Definition ISAM2_update (new_factors : NonlinearFactorGraph)
    (new_values : gmap Key SE3) (remove : list nat) (b : ISAM2) : ISAM2Result * ISAM2 :=
  let first_new := length (nonlinearFactors_ b) in
  let slots := remove_factors remove (nonlinearFactors_ b ++ (Some <$> new_factors)) in
  ({| newFactorsIndices := seq first_new (length new_factors) |},
   {| isam2_params := isam2_params b;
      nonlinearFactors_ := slots;
      theta_ := relinearize (isam2_params b) slots (theta_ b ∪ new_values) |}).

Definition ISAM2_calculateEstimate (b : ISAM2) : gmap Key SE3 := theta_ b.

(** The number of constraints the backend holds: its non-empty slots. *)
Definition nrFactors (b : ISAM2) : nat :=
  length (filter is_Some (nonlinearFactors_ b)).

(** ** The estimator object *)

Record IncrementalEstimator : Type := mkIncrementalEstimator {
  params_ : EstimatorParams;
  n_laser_slam_workers_ : nat;
  isam2_ : ISAM2;
  laser_tracks_ : list LaserTrack;
  loop_closure_noise_model_ : NoiseModel;
  icp_ : ICP;
  factor_indice_to_remove_ : nat
}.

(** What a member function does to the shared members, in program order. *)
Inductive Event : Type :=
| Lock
| Unlock
| Update (new_factors : NonlinearFactorGraph) (new_values : gmap Key SE3)
         (remove : list nat)
| CalculateEstimate
| SlotRead
| SlotWrite (index : nat)
| TrackAccess (i : nat)
| TrackSink (i : nat) (result : gmap Key SE3).

Record Run (A : Type) : Type := mkRun {
  outcome : Outcome A;
  final : IncrementalEstimator;
  events : list Event
}.

Arguments mkRun {A} outcome final events.
Arguments outcome {A} r.
Arguments final {A} r.
Arguments events {A} r.

Definition M (A : Type) : Type := IncrementalEstimator → Run A.

Definition M_ret {A} (a : A) : M A := λ s, mkRun (Returned a) s [].

(** The events of a call that ran after [ev] had been recorded. *)
Definition prepend {A} (ev : list Event) (r : Run A) : Run A :=
  mkRun (outcome r) (final r) (ev ++ events r).

Definition M_bind {A B} (f : A → M B) (m : M A) : M B := λ s,
  match m s with
  | mkRun (Returned a) s' ev => prepend ev (f a s')
  | mkRun (Fatal message) s' ev => mkRun (Fatal message) s' ev
  | mkRun Thrown s' ev => mkRun Thrown s' ev
  | mkRun Undefined s' ev => mkRun Undefined s' ev
  end.

#[export] Instance M_mret : MRet M := @M_ret.
#[export] Instance M_mbind : MBind M := @M_bind.

(** ** Primitive steps *)

Definition emit (e : Event) : M unit := λ s, mkRun (Returned ()) s [e].

Definition fatal {A} (message : string) : M A := λ s, mkRun (Fatal message) s [].

Definition throw {A} : M A := λ s, mkRun Thrown s [].

Definition get {A} (field : IncrementalEstimator → A) : M A := λ s,
  mkRun (Returned (field s)) s [].

(** glog's [CHECK_xx(a, b) << message]: active in every build type. *)
Definition CHECK (condition : bool) (message : string) : M unit :=
  if condition then mret () else fatal message.

(** [std::lock_guard<std::recursive_mutex> lock(full_class_mutex_)]: the mutex
    is taken where the guard is declared.  The destructor of the guard gives
    it back when the function returns and when an exception unwinds through
    the function; a failed [CHECK] aborts the process and an out-of-range
    access has no defined continuation, so neither runs the destructor. *)
Definition guard_exit {A} (r : Run A) : Run A :=
  match outcome r with
  | Returned _ | Thrown => mkRun (outcome r) (final r) (events r ++ [Unlock])
  | Fatal _ | Undefined => r
  end.

Definition lock_guard {A} (body : M A) : M A := λ s,
  guard_exit (prepend [Lock] (body s)).

Definition set_isam2 (b : ISAM2) (s : IncrementalEstimator) : IncrementalEstimator :=
  {| params_ := params_ s;
     n_laser_slam_workers_ := n_laser_slam_workers_ s;
     isam2_ := b;
     laser_tracks_ := laser_tracks_ s;
     loop_closure_noise_model_ := loop_closure_noise_model_ s;
     icp_ := icp_ s;
     factor_indice_to_remove_ := factor_indice_to_remove_ s |}.

Definition set_laser_tracks (ts : list LaserTrack) (s : IncrementalEstimator) :
    IncrementalEstimator :=
  {| params_ := params_ s;
     n_laser_slam_workers_ := n_laser_slam_workers_ s;
     isam2_ := isam2_ s;
     laser_tracks_ := ts;
     loop_closure_noise_model_ := loop_closure_noise_model_ s;
     icp_ := icp_ s;
     factor_indice_to_remove_ := factor_indice_to_remove_ s |}.

Definition set_factor_indice_to_remove (i : nat) (s : IncrementalEstimator) :
    IncrementalEstimator :=
  {| params_ := params_ s;
     n_laser_slam_workers_ := n_laser_slam_workers_ s;
     isam2_ := isam2_ s;
     laser_tracks_ := laser_tracks_ s;
     loop_closure_noise_model_ := loop_closure_noise_model_ s;
     icp_ := icp_ s;
     factor_indice_to_remove_ := i |}.

(** [laser_tracks_[i]]: [std::vector::operator[]], no bounds check. *)
Definition laser_tracks_at (i : nat) : M LaserTrack := λ s,
  match laser_tracks_ s !! i with
  | Some t => mkRun (Returned t) s [TrackAccess i]
  | None => mkRun Undefined s [TrackAccess i]
  end.

(** [isam2_.update(new_factors, new_values, remove)]; the two trailing
    arguments default to empty. *)
Definition isam2_update (new_factors : NonlinearFactorGraph)
    (new_values : gmap Key SE3) (remove : list nat) : M ISAM2Result := λ s,
  let u := ISAM2_update new_factors new_values remove (isam2_ s) in
  mkRun (Returned u.1) (set_isam2 u.2 s) [Update new_factors new_values remove].

Definition isam2_calculateEstimate : M (gmap Key SE3) := λ s,
  mkRun (Returned (ISAM2_calculateEstimate (isam2_ s))) s [CalculateEstimate].

Definition read_factor_indice_to_remove : M nat := λ s,
  mkRun (Returned (factor_indice_to_remove_ s)) s [SlotRead].

Definition write_factor_indice_to_remove (i : nat) : M unit := λ s,
  mkRun (Returned ()) (set_factor_indice_to_remove i s) [SlotWrite i].

(** [for (auto& track: laser_tracks_) track->updateFromGTSAMValues(result)]. *)
Definition update_all_tracks (result : gmap Key SE3) : M unit := λ s,
  mkRun (Returned ())
        (set_laser_tracks (updateFromGTSAMValues result <$> laser_tracks_ s) s)
        ((λ i, TrackSink i result) <$> seq 0 (length (laser_tracks_ s))).

Definition with_T_a_b (t : SE3) (lc : RelativePose) : RelativePose :=
  {| T_a_b := t;
     time_a_ns := time_a_ns lc;
     time_b_ns := time_b_ns lc;
     track_id_a := track_id_a lc;
     track_id_b := track_id_b lc |}.

(** ** Construction *)

(** [gtsam::ISAM2Params]'s own defaults, before the setters run. *)
Definition ISAM2Params_default : ISAM2Params :=
  {| relinearizeSkip := 10; relinearizeThreshold := (1 # 10)%Q |}.

Definition setRelinearizeSkip (n : Z) (p : ISAM2Params) : ISAM2Params :=
  {| relinearizeSkip := n; relinearizeThreshold := relinearizeThreshold p |}.

Definition setRelinearizeThreshold (t : Q) (p : ISAM2Params) : ISAM2Params :=
  {| relinearizeSkip := relinearizeSkip p; relinearizeThreshold := t |}.

(** The constructor.  [open_file] is the file system as [std::ifstream] sees
    it ([None]: the stream is not good); [uninitialized] is whatever value
    [factor_indice_to_remove_] holds before its first assignment, which the
    constructor does not make. *)
Definition IncrementalEstimator_new (open_file : string → option string)
    (uninitialized : nat) (parameters : EstimatorParams)
    (n_laser_slam_workers : nat) : IncrementalEstimator :=
  let isam2_params :=
    setRelinearizeThreshold (1 # 1000)%Q (setRelinearizeSkip 1 ISAM2Params_default) in
  let isam2 := new_ISAM2 isam2_params in
  let laser_tracks :=
    (λ i, new_LaserTrack (laser_track_params parameters) i) <$> seq 0 n_laser_slam_workers in
  let loop_closure_noise_model :=
    if add_m_estimator_on_loop_closures parameters
    then Robust_Create (Cauchy 1) (Diagonal_Sigmas (loop_closure_noise_model parameters))
    else Diagonal_Sigmas (loop_closure_noise_model parameters) in
  let icp :=
    match open_file (icp_configuration_file (laser_track_params parameters)) with
    | Some contents => loadFromYaml contents
    | None => setDefault
    end in
  {| params_ := parameters;
     n_laser_slam_workers_ := n_laser_slam_workers;
     isam2_ := isam2;
     laser_tracks_ := laser_tracks;
     loop_closure_noise_model_ := loop_closure_noise_model;
     icp_ := icp;
     factor_indice_to_remove_ := uninitialized |}.

(** ** Member functions

    Log lines, the [Clock] and the [print] of an update result touch none of
    the members and are left out. *)

Definition invalid_time : string := "Loop closure has invalid time."%string.

Definition estimate (new_factors : NonlinearFactorGraph)
    (new_values : gmap Key SE3) : M (gmap Key SE3) :=
  lock_guard (
    isam2_update new_factors new_values [];;
    isam2_update [] ∅ [];;
    isam2_update [] ∅ [];;
    result ← isam2_calculateEstimate;
    mret result).

Definition estimateAndRemove (new_factors : NonlinearFactorGraph)
    (new_values : gmap Key SE3) : M (gmap Key SE3) :=
  lock_guard (
    slot ← read_factor_indice_to_remove;
    let factor_indices_to_remove := [] ++ [slot] in
    isam2_update new_factors new_values factor_indices_to_remove;;
    isam2_update [] ∅ [];;
    isam2_update [] ∅ [];;
    result ← isam2_calculateEstimate;
    mret result).

Definition registerPrior (new_factors : NonlinearFactorGraph)
    (new_values : gmap Key SE3) (worker_id : nat) : M (gmap Key SE3) :=
  update_result ← isam2_update new_factors new_values [];
  CHECK (length (newFactorsIndices update_result) =? 1)%nat EmptyString;;
  (if (worker_id =? 1)%nat
   then match newFactorsIndices update_result !! 0%nat with
        | Some index => write_factor_indice_to_remove index
        | None => throw
        end
   else mret ());;
  isam2_update [] ∅ [];;
  isam2_update [] ∅ [];;
  result ← isam2_calculateEstimate;
  mret result.

Definition getLaserTrack (laser_track_id : nat) : M LaserTrack :=
  lock_guard (
    CHECK (0 <=? laser_track_id)%nat EmptyString;;
    size ← get (λ s, length (laser_tracks_ s));
    CHECK (laser_track_id <? size)%nat EmptyString;;
    laser_tracks_at laser_track_id).

Definition icp_step (loop_closure : RelativePose) : M RelativePose :=
  params ← get params_;
  track_a ← laser_tracks_at (track_id_a loop_closure);
  let sub_map_a :=
    buildSubMapAroundTime track_a (time_a_ns loop_closure)
                          (loop_closures_sub_maps_radius params) in
  track_b ← laser_tracks_at (track_id_b loop_closure);
  let sub_map_b :=
    buildSubMapAroundTime track_b (time_b_ns loop_closure)
                          (loop_closures_sub_maps_radius params) in
  icp ← get icp_;
  match icp_compute icp sub_map_b sub_map_a (T_a_b loop_closure) with
  | Some icp_solution => mret (with_T_a_b icp_solution loop_closure)
  | None => throw
  end.

Definition processLoopClosure (loop_closure : RelativePose) : M unit :=
  lock_guard (
    CHECK (time_a_ns loop_closure <? time_b_ns loop_closure) invalid_time;;
    track ← laser_tracks_at (track_id_a loop_closure);
    CHECK (getMinTime track <=? time_a_ns loop_closure) invalid_time;;
    track ← laser_tracks_at (track_id_a loop_closure);
    CHECK (time_a_ns loop_closure <=? getMaxTime track) invalid_time;;
    track ← laser_tracks_at (track_id_b loop_closure);
    CHECK (getMinTime track <=? time_b_ns loop_closure) invalid_time;;
    track ← laser_tracks_at (track_id_b loop_closure);
    CHECK (time_b_ns loop_closure <=? getMaxTime track) invalid_time;;
    params ← get params_;
    updated_loop_closure ←
      (if do_icp_step_on_loop_closures params
       then icp_step loop_closure
       else mret loop_closure);
    track_b ← laser_tracks_at (track_id_b loop_closure);
    let T_w_b := getValueExpression track_b (time_b_ns updated_loop_closure) in
    track_a ← laser_tracks_at (track_id_a loop_closure);
    let T_w_a := getValueExpression track_a (time_a_ns updated_loop_closure) in
    let T_a_w := Inverse T_w_a in
    let relative := Compose T_a_w T_w_b in
    noise ← get loop_closure_noise_model_;
    let new_factor := mkExpressionFactor noise (T_a_b updated_loop_closure) relative in
    let new_factors := [] ++ [new_factor] in
    let new_values := ∅ in
    result ← estimateAndRemove new_factors new_values;
    update_all_tracks result).

(** ** Reading events *)

Definition is_update (e : Event) : bool :=
  match e with Update _ _ _ => true | _ => false end.

Definition is_slot_write (e : Event) : bool :=
  match e with SlotWrite _ => true | _ => false end.

(** Does every use of a shared member in [evs] happen while the calling
    thread holds the mutex?  [depth] is how often the thread holds it (the
    mutex is recursive) when [evs] starts. *)
Fixpoint guarded (depth : nat) (evs : list Event) : bool :=
  match evs with
  | [] => true
  | Lock :: evs' => guarded (S depth) evs'
  | Unlock :: evs' => guarded (pred depth) evs'
  | _ :: evs' => (0 <? depth)%nat && guarded depth evs'
  end.

(** The factors handed to the backend by the [update] calls in [evs]. *)
Definition submitted (evs : list Event) : NonlinearFactorGraph :=
  flat_map (λ e, match e with Update new_factors _ _ => new_factors | _ => [] end) evs.

(** The track sink calls in [evs]: which track, with which estimate. *)
Definition sinks (evs : list Event) : list (nat * gmap Key SE3) :=
  flat_map (λ e, match e with TrackSink i result => [(i, result)] | _ => [] end) evs.

(** The value of a symbolic expression under an assignment of its leaves. *)
Fixpoint eval (values : gmap Key SE3) (e : Expression) : option SE3 :=
  match e with
  | Leaf k => values !! k
  | Inverse e1 => se3_inverse <$> eval values e1
  | Compose e1 e2 =>
      match eval values e1, eval values e2 with
      | Some t1, Some t2 => Some (se3_compose t1 t2)
      | _, _ => None
      end
  end.

(** ** The public operations as one type *)

Inductive Operation : Type :=
| OpProcessLoopClosure (loop_closure : RelativePose)
| OpEstimate (new_factors : NonlinearFactorGraph) (new_values : gmap Key SE3)
| OpEstimateAndRemove (new_factors : NonlinearFactorGraph) (new_values : gmap Key SE3)
| OpRegisterPrior (new_factors : NonlinearFactorGraph) (new_values : gmap Key SE3)
                  (worker_id : nat)
| OpGetLaserTrack (laser_track_id : nat).

Definition perform (op : Operation) : M unit :=
  match op with
  | OpProcessLoopClosure loop_closure => processLoopClosure loop_closure
  | OpEstimate new_factors new_values =>
      M_bind (λ _, M_ret ()) (estimate new_factors new_values)
  | OpEstimateAndRemove new_factors new_values =>
      M_bind (λ _, M_ret ()) (estimateAndRemove new_factors new_values)
  | OpRegisterPrior new_factors new_values worker_id =>
      M_bind (λ _, M_ret ()) (registerPrior new_factors new_values worker_id)
  | OpGetLaserTrack laser_track_id =>
      M_bind (λ _, M_ret ()) (getLaserTrack laser_track_id)
  end.

(** Is the operation a [registerPrior] call made by worker 1? *)
Definition is_anchor_registerPrior (op : Operation) : bool :=
  match op with
  | OpRegisterPrior _ _ worker_id => (worker_id =? 1)%nat
  | _ => false
  end.

(** A computation that leaves [factor_indice_to_remove_] alone, however it
    ends. *)
Definition keeps_slot {A : Type} (m : M A) : Prop :=
  ∀ s, factor_indice_to_remove_ (final (m s)) = factor_indice_to_remove_ s
       ∧ Forall (λ e, is_slot_write e = false) (events (m s)).

(** ** Further readings of a run *)

(** How often the calling thread holds the mutex after [evs], having held it
    [depth] times before. *)
Fixpoint depth_after (depth : nat) (evs : list Event) : nat :=
  match evs with
  | [] => depth
  | Lock :: evs' => depth_after (S depth) evs'
  | Unlock :: evs' => depth_after (pred depth) evs'
  | _ :: evs' => depth_after depth evs'
  end.

(** The largest number of times the thread holds the mutex at once during
    [evs]. *)
Fixpoint max_depth (depth : nat) (evs : list Event) : nat :=
  match evs with
  | [] => depth
  | Lock :: evs' => max_depth (S depth) evs'
  | Unlock :: evs' => Nat.max depth (max_depth (pred depth) evs')
  | _ :: evs' => max_depth depth evs'
  end.

(** The factor indices the [update] calls in [evs] ask the backend to remove. *)
Definition removed (evs : list Event) : list nat :=
  flat_map (λ e, match e with Update _ _ remove => remove | _ => [] end) evs.

(** A sequence of public calls on one estimator.  A call that does not return
    ends the process: the estimator stays as that call left it. *)
Fixpoint perform_all (ops : list Operation) (s : IncrementalEstimator) :
    IncrementalEstimator :=
  match ops with
  | [] => s
  | op :: ops' =>
      match outcome (perform op s) with
      | Returned _ => perform_all ops' (final (perform op s))
      | _ => final (perform op s)
      end
  end.

(** A computation whose final estimator is related by [R] to the one it
    started from, however it ends. *)
Definition preserves {A : Type}
    (R : IncrementalEstimator → IncrementalEstimator → Prop) (m : M A) : Prop :=
  ∀ s, R s (final (m s)).

(** What construction fixes: the parameters, the number of workers, the noise
    model, the ICP configuration and the number of tracks. *)
Definition same_configuration (s s' : IncrementalEstimator) : Prop :=
  params_ s' = params_ s
  ∧ n_laser_slam_workers_ s' = n_laser_slam_workers_ s
  ∧ loop_closure_noise_model_ s' = loop_closure_noise_model_ s
  ∧ icp_ s' = icp_ s
  ∧ length (laser_tracks_ s') = length (laser_tracks_ s).

Definition same_tracks (s s' : IncrementalEstimator) : Prop :=
  laser_tracks_ s' = laser_tracks_ s.

End Estimator.

Arguments Run {SE3} A.
Arguments mkRun {SE3 A} outcome final events.
Arguments outcome {SE3 A} r.
Arguments final {SE3 A} r.
Arguments events {SE3 A} r.

(** ** A small instance

    One-dimensional poses: integers under addition.  The smoother's numerical
    step keeps its values, the matcher shifts its initial guess by one. *)
Module Demo.

#[global] Instance collaborators : Collaborators (SE3 := Z) (DataPoints := unit) := {|
  relinearize := λ _ _ values, values;
  buildSubMapAroundTime := λ _ _ _, ();
  icp_compute := λ _ _ _ guess, Some (guess + 1);
  se3_compose := Z.add;
  se3_inverse := Z.opp
|}.

Definition parameters : EstimatorParams :=
  {| loop_closure_noise_model := [(1 # 10)%Q];
     add_m_estimator_on_loop_closures := true;
     do_icp_step_on_loop_closures := false;
     loop_closures_sub_maps_radius := 3;
     laser_track_params := {| icp_configuration_file := "icp.yaml" |};
     relinearize_skip := 2;
     relinearize_threshold := (1 # 2)%Q |}.

(** Two workers, as built by the constructor. *)
Definition fresh : IncrementalEstimator (SE3 := Z) :=
  IncrementalEstimator_new (λ _, None) 0 parameters 2.

Definition track_0 : LaserTrack (SE3 := Z) :=
  {| laser_track_id := 0; trajectory := [(0, 7); (100, 8)] |}.

Definition track_1 : LaserTrack (SE3 := Z) :=
  {| laser_track_id := 1; trajectory := [(0, 9); (100, 10)] |}.

(** The same estimator once both tracks span the times 0 to 100. *)
Definition tracking : IncrementalEstimator (SE3 := Z) :=
  set_laser_tracks [track_0; track_1] fresh.

Definition prior : ExpressionFactor (SE3 := Z) :=
  {| factor_noise := Diagonal_Sigmas [(1 # 10)%Q];
     factor_measured := 0;
     factor_expression := Leaf (1%nat, 0) |}.

(** [tracking] after worker 1 has registered its prior. *)
Definition anchored : IncrementalEstimator (SE3 := Z) :=
  final (registerPrior [prior] ∅ 1 tracking).

Definition candidate : RelativePose (SE3 := Z) :=
  {| T_a_b := 0; time_a_ns := 10; time_b_ns := 50; track_id_a := 0; track_id_b := 1 |}.

Definition late_candidate : RelativePose (SE3 := Z) :=
  {| T_a_b := 0; time_a_ns := 60; time_b_ns := 50; track_id_a := 0; track_id_b := 1 |}.

Definition stray_candidate : RelativePose (SE3 := Z) :=
  {| T_a_b := 0; time_a_ns := 10; time_b_ns := 50; track_id_a := 0; track_id_b := 5 |}.


(** An estimator with the ICP step switched on, and a matcher that always
    throws. *)
Definition refining : IncrementalEstimator (SE3 := Z) :=
  {| params_ :=
       {| loop_closure_noise_model := [(1 # 10)%Q];
          add_m_estimator_on_loop_closures := true;
          do_icp_step_on_loop_closures := true;
          loop_closures_sub_maps_radius := 3;
          laser_track_params := {| icp_configuration_file := "icp.yaml" |};
          relinearize_skip := 2;
          relinearize_threshold := (1 # 2)%Q |};
     n_laser_slam_workers_ := 2;
     isam2_ := isam2_ anchored;
     laser_tracks_ := [track_0; track_1];
     loop_closure_noise_model_ := loop_closure_noise_model_ anchored;
     icp_ := setDefault;
     factor_indice_to_remove_ := factor_indice_to_remove_ anchored |}.

Definition failing_matcher : Collaborators (SE3 := Z) (DataPoints := unit) := {|
  relinearize := λ _ _ values, values;
  buildSubMapAroundTime := λ _ _ _, ();
  icp_compute := λ _ _ _ _, None;
  se3_compose := Z.add;
  se3_inverse := Z.opp
|}.

End Demo.

Section Properties.

Context {SE3 DataPoints : Type}
        {collaborators : Collaborators (SE3 := SE3) (DataPoints := DataPoints)}.

Local Abbreviation M := (M (SE3 := SE3)).
Local Abbreviation IncrementalEstimator := (IncrementalEstimator (SE3 := SE3)).
Local Abbreviation RelativePose := (RelativePose (SE3 := SE3)).
Local Abbreviation LaserTrack := (LaserTrack (SE3 := SE3)).
Local Abbreviation ExpressionFactor := (ExpressionFactor (SE3 := SE3)).
Local Abbreviation NonlinearFactorGraph := (list ExpressionFactor).
Local Abbreviation ISAM2 := (ISAM2 (SE3 := SE3)).
Local Abbreviation Event := (Event (SE3 := SE3)).

(** ** Running a computation step by step

    One equation per primitive step under a bind, and the associativity of
    bind: rewriting with them runs a member function from its first statement
    on, and stops where the run depends on a condition, on a vector access or
    on the matcher. *)

Lemma bind_assoc {A B C : Type} (m : M A) (g : A → M B) (f : B → M C) (s : IncrementalEstimator) :
  M_bind f (M_bind g m) s = M_bind (λ a, M_bind f (g a)) m s.
Proof.
  unfold M_bind. destruct (m s) as [[a|msg| |] s1 ev1]; try reflexivity.
  destruct (g a s1) as [[b|msg| |] s2 ev2]; cbn; try reflexivity.
  unfold prepend. cbn. by rewrite app_assoc.
Qed.

Lemma bind_ret {A B : Type} (a : A) (f : A → M B) (s : IncrementalEstimator) :
  M_bind f (M_ret a) s = prepend [] (f a s).
Proof. reflexivity. Qed.

Lemma bind_emit {B : Type} (e : Event) (f : unit → M B) (s : IncrementalEstimator) :
  M_bind f (emit e) s = prepend [e] (f () s).
Proof. reflexivity. Qed.

Lemma bind_get {A B : Type} (field : IncrementalEstimator → A) (f : A → M B)
    (s : IncrementalEstimator) :
  M_bind f (get field) s = prepend [] (f (field s) s).
Proof. reflexivity. Qed.

Lemma bind_fatal {A B : Type} (message : string) (f : A → M B) (s : IncrementalEstimator) :
  M_bind f (fatal message) s = mkRun (Fatal message) s [].
Proof. reflexivity. Qed.

Lemma bind_throw {A B : Type} (f : A → M B) (s : IncrementalEstimator) :
  M_bind f throw s = mkRun Thrown s [].
Proof. reflexivity. Qed.

Lemma bind_CHECK_true {B : Type} (message : string) (f : unit → M B) (s : IncrementalEstimator) :
  M_bind f (CHECK true message) s = prepend [] (f () s).
Proof. reflexivity. Qed.

Lemma bind_CHECK_false {B : Type} (message : string) (f : unit → M B) (s : IncrementalEstimator) :
  M_bind f (CHECK false message) s = mkRun (Fatal message) s [].
Proof. reflexivity. Qed.

Lemma bind_laser_tracks_at_Some {B : Type} (i : nat) (t : LaserTrack) (f : LaserTrack → M B)
    (s : IncrementalEstimator) :
  laser_tracks_ s !! i = Some t →
  M_bind f (laser_tracks_at i) s = prepend [TrackAccess i] (f t s).
Proof. intros H. unfold M_bind, laser_tracks_at. by rewrite H. Qed.

Lemma bind_laser_tracks_at_None {B : Type} (i : nat) (f : LaserTrack → M B)
    (s : IncrementalEstimator) :
  laser_tracks_ s !! i = None →
  M_bind f (laser_tracks_at i) s = mkRun Undefined s [TrackAccess i].
Proof. intros H. unfold M_bind, laser_tracks_at. by rewrite H. Qed.

Lemma bind_isam2_update {B : Type} (new_factors : NonlinearFactorGraph)
    (new_values : gmap Key SE3) (remove : list nat) (f : ISAM2Result → M B)
    (s : IncrementalEstimator) :
  M_bind f (isam2_update new_factors new_values remove) s =
  prepend [Update new_factors new_values remove]
          (f (ISAM2_update new_factors new_values remove (isam2_ s)).1
             (set_isam2 (ISAM2_update new_factors new_values remove (isam2_ s)).2 s)).
Proof. reflexivity. Qed.

Lemma bind_isam2_calculateEstimate {B : Type} (f : gmap Key SE3 → M B) (s : IncrementalEstimator) :
  M_bind f isam2_calculateEstimate s =
  prepend [CalculateEstimate] (f (ISAM2_calculateEstimate (isam2_ s)) s).
Proof. reflexivity. Qed.

Lemma bind_read_factor_indice_to_remove {B : Type} (f : nat → M B) (s : IncrementalEstimator) :
  M_bind f read_factor_indice_to_remove s =
  prepend [SlotRead] (f (factor_indice_to_remove_ s) s).
Proof. reflexivity. Qed.

Lemma bind_write_factor_indice_to_remove {B : Type} (i : nat) (f : unit → M B)
    (s : IncrementalEstimator) :
  M_bind f (write_factor_indice_to_remove i) s =
  prepend [SlotWrite i] (f () (set_factor_indice_to_remove i s)).
Proof. reflexivity. Qed.

Lemma bind_update_all_tracks {B : Type} (result : gmap Key SE3) (f : unit → M B)
    (s : IncrementalEstimator) :
  M_bind f (update_all_tracks result) s =
  prepend ((λ i, TrackSink i result) <$> seq 0 (length (laser_tracks_ s)))
          (f () (set_laser_tracks (updateFromGTSAMValues result <$> laser_tracks_ s) s)).
Proof. reflexivity. Qed.

Lemma laser_tracks_at_Some (i : nat) (t : LaserTrack) (s : IncrementalEstimator) :
  laser_tracks_ s !! i = Some t →
  laser_tracks_at i s = mkRun (Returned t) s [TrackAccess i].
Proof. intros H. unfold laser_tracks_at. by rewrite H. Qed.

Lemma laser_tracks_at_None (i : nat) (s : IncrementalEstimator) :
  laser_tracks_ s !! i = None →
  laser_tracks_at i s = mkRun Undefined s [TrackAccess i].
Proof. intros H. unfold laser_tracks_at. by rewrite H. Qed.

(** [estimateAndRemove] called from inside another member function: it always
    returns, so the caller goes on after it. *)
Lemma bind_estimateAndRemove {B : Type} (new_factors : NonlinearFactorGraph)
    (new_values : gmap Key SE3) (f : gmap Key SE3 → M B) (s : IncrementalEstimator) :
  M_bind f (estimateAndRemove new_factors new_values) s =
  prepend [Lock; SlotRead;
           Update new_factors new_values [factor_indice_to_remove_ s];
           Update [] ∅ []; Update [] ∅ []; CalculateEstimate; Unlock]
    (f (ISAM2_calculateEstimate
          (ISAM2_update [] ∅ [] (ISAM2_update [] ∅ []
             (ISAM2_update new_factors new_values [factor_indice_to_remove_ s]
                           (isam2_ s)).2).2).2)
       (set_isam2
          (ISAM2_update [] ∅ [] (ISAM2_update [] ∅ []
             (ISAM2_update new_factors new_values [factor_indice_to_remove_ s]
                           (isam2_ s)).2).2).2 s)).
Proof. reflexivity. Qed.

Ltac monad_unfold :=
  unfold mbind, mret, M_mbind, M_mret.

Ltac run_unfold :=
  unfold lock_guard; monad_unfold.

Ltac run_step :=
  first
    [ rewrite bind_assoc
    | rewrite bind_ret
    | rewrite bind_emit
    | rewrite bind_get
    | rewrite bind_fatal
    | rewrite bind_throw
    | rewrite bind_CHECK_true
    | rewrite bind_CHECK_false
    | rewrite bind_isam2_update
    | rewrite bind_isam2_calculateEstimate
    | rewrite bind_read_factor_indice_to_remove
    | rewrite bind_write_factor_indice_to_remove
    | rewrite bind_update_all_tracks
    | rewrite bind_estimateAndRemove
    | erewrite bind_laser_tracks_at_Some by eassumption
    | erewrite bind_laser_tracks_at_None by eassumption
    | erewrite laser_tracks_at_Some by eassumption
    | erewrite laser_tracks_at_None by eassumption ].

(** Split on what the run in the goal is waiting for. *)
Ltac run_case :=
  match goal with
  | |- context [M_bind _ (laser_tracks_at ?i) ?s] =>
      destruct (laser_tracks_ s !! i) eqn:?
  | |- context [M_bind _ (CHECK ?c _) _] => destruct c eqn:?
  | |- context [M_bind _ (if ?c then _ else _) _] => destruct c eqn:?
  | |- context [M_bind _ (match ?o with Some _ => _ | None => _ end) _] =>
      destruct o eqn:?
  | |- context [laser_tracks_at ?i ?s] => destruct (laser_tracks_ s !! i) eqn:?
  end.

Ltac run := run_unfold; repeat run_step.
Ltac run_all := run_unfold; repeat (run_step || run_case).

(** ** The calls of [estimate] *)

Lemma estimate_run (new_factors : NonlinearFactorGraph)
    (new_values : gmap Key SE3) (s : IncrementalEstimator) :
  let b1 := (ISAM2_update new_factors new_values [] (isam2_ s)).2 in
  let b2 := (ISAM2_update [] ∅ [] b1).2 in
  let b3 := (ISAM2_update [] ∅ [] b2).2 in
  estimate new_factors new_values s =
    mkRun (Returned (ISAM2_calculateEstimate b3)) (set_isam2 b3 s)
          [Lock; Update new_factors new_values []; Update [] ∅ []; Update [] ∅ [];
           CalculateEstimate; Unlock].
Proof. reflexivity. Qed.

(** ** The backend's constraint count *)

Lemma filter_is_Some_cons {A} (x : option A) (l : list (option A)) :
  length (filter is_Some (x :: l)) =
  ((if x is Some _ then 1 else 0) + length (filter is_Some l))%nat.
Proof.
  rewrite filter_cons. destruct x; case_decide as H; try done.
  exfalso. apply H. by eexists.
Qed.

Lemma nrFactors_new (slots : list (option ExpressionFactor))
    (new_factors : NonlinearFactorGraph) :
  length (filter is_Some (slots ++ (Some <$> new_factors))) =
  (length (filter is_Some slots) + length new_factors)%nat.
Proof.
  rewrite filter_app, length_app. f_equal.
  induction new_factors as [|f fs IH]; [done|].
  by rewrite fmap_cons, filter_is_Some_cons, IH.
Qed.

Lemma nrFactors_removed (slots : list (option ExpressionFactor)) (i : nat)
    (f : ExpressionFactor) :
  slots !! i = Some (Some f) →
  S (length (filter is_Some (<[i := None]> slots))) = length (filter is_Some slots).
Proof.
  revert i. induction slots as [|x slots IH]; intros i Hi; [done|].
  destruct i as [|i]; simpl in Hi.
  - injection Hi as ->. change (<[0%nat:=None]> (Some f :: slots)) with (None :: slots).
    by rewrite !filter_is_Some_cons.
  - change (<[S i:=None]> (x :: slots)) with (x :: <[i:=None]> slots).
    rewrite !filter_is_Some_cons, <- (IH i Hi). lia.
Qed.

Lemma nrFactors_update_none (b : ISAM2) :
  nrFactors (ISAM2_update [] ∅ [] b).2 = nrFactors b.
Proof.
  unfold nrFactors. simpl. by rewrite app_nil_r.
Qed.

Lemma estimateAndRemove_run (new_factors : NonlinearFactorGraph)
    (new_values : gmap Key SE3) (s : IncrementalEstimator) :
  let slot := factor_indice_to_remove_ s in
  let b1 := (ISAM2_update new_factors new_values [slot] (isam2_ s)).2 in
  let b2 := (ISAM2_update [] ∅ [] b1).2 in
  let b3 := (ISAM2_update [] ∅ [] b2).2 in
  estimateAndRemove new_factors new_values s =
    mkRun (Returned (ISAM2_calculateEstimate b3)) (set_isam2 b3 s)
          [Lock; SlotRead; Update new_factors new_values [slot];
           Update [] ∅ []; Update [] ∅ []; CalculateEstimate; Unlock].
Proof. reflexivity. Qed.

(** C9.  For every batch, [estimate] takes the lock, submits the batch in one
    [update] call that removes nothing, makes exactly two further [update]
    calls with no arguments, asks the backend for its estimate and returns it;
    no check can stop it and the call always returns. *)
Theorem estimate_update_sequence (new_factors : NonlinearFactorGraph)
    (new_values : gmap Key SE3) (s : IncrementalEstimator) :
  let b1 := (ISAM2_update new_factors new_values [] (isam2_ s)).2 in
  let b2 := (ISAM2_update [] ∅ [] b1).2 in
  let b3 := (ISAM2_update [] ∅ [] b2).2 in
  outcome (estimate new_factors new_values s) = Returned (ISAM2_calculateEstimate b3)
  ∧ isam2_ (final (estimate new_factors new_values s)) = b3
  ∧ events (estimate new_factors new_values s) =
      [Lock; Update new_factors new_values []; Update [] ∅ []; Update [] ∅ [];
       CalculateEstimate; Unlock].
Proof.
  intros b1 b2 b3. by rewrite estimate_run.
Qed.

(** C6.  Whenever the backend's answer to the submission lists a number of new
    factor indices other than one, [registerPrior] aborts right after that
    first [update] call: the factor index held by the estimator is as before
    and no write of it has happened. *)
Theorem registerPrior_aborts_on_index_count (new_factors : NonlinearFactorGraph)
    (new_values : gmap Key SE3) (worker_id : nat) (s : IncrementalEstimator) :
  length (newFactorsIndices (ISAM2_update new_factors new_values [] (isam2_ s)).1) ≠ 1%nat →
  outcome (registerPrior new_factors new_values worker_id s) = Fatal EmptyString
  ∧ factor_indice_to_remove_ (final (registerPrior new_factors new_values worker_id s))
      = factor_indice_to_remove_ s
  ∧ events (registerPrior new_factors new_values worker_id s)
      = [Update new_factors new_values []].
Proof.
  intros Hcount. unfold registerPrior. run.
  destruct (Nat.eqb_spec
    (length (newFactorsIndices (ISAM2_update new_factors new_values [] (isam2_ s)).1)) 1)
    as [Heq|_]; [by destruct Hcount|].
  by run.
Qed.

(** ** Validation in [processLoopClosure] *)

(** C2.  A candidate that breaks one of the time bounds (taken on the two
    tracks it names) makes [processLoopClosure] abort with its fatal message;
    the estimator, its backend included, is as it was, and no [update] call
    has been made. *)
Theorem processLoopClosure_rejects_invalid_times (loop_closure : RelativePose)
    (s : IncrementalEstimator) (track_a track_b : LaserTrack) :
  laser_tracks_ s !! track_id_a loop_closure = Some track_a →
  laser_tracks_ s !! track_id_b loop_closure = Some track_b →
  ¬ (time_a_ns loop_closure < time_b_ns loop_closure
     ∧ getMinTime track_a ≤ time_a_ns loop_closure ≤ getMaxTime track_a
     ∧ getMinTime track_b ≤ time_b_ns loop_closure ≤ getMaxTime track_b) →
  outcome (processLoopClosure loop_closure s) = Fatal invalid_time
  ∧ final (processLoopClosure loop_closure s) = s
  ∧ isam2_ (final (processLoopClosure loop_closure s)) = isam2_ s
  ∧ Forall (λ e, is_update e = false) (events (processLoopClosure loop_closure s)).
Proof.
  intros Ha Hb Hbad. unfold processLoopClosure. run.
  destruct (Z.ltb_spec (time_a_ns loop_closure) (time_b_ns loop_closure));
    run; [|by repeat constructor].
  destruct (Z.leb_spec (getMinTime track_a) (time_a_ns loop_closure));
    run; [|by repeat constructor].
  destruct (Z.leb_spec (time_a_ns loop_closure) (getMaxTime track_a));
    run; [|by repeat constructor].
  destruct (Z.leb_spec (getMinTime track_b) (time_b_ns loop_closure));
    run; [|by repeat constructor].
  destruct (Z.leb_spec (time_b_ns loop_closure) (getMaxTime track_b));
    run; [|by repeat constructor].
  destruct Hbad. lia.
Qed.

(** C10.  [processLoopClosure] indexes the track vector at both track ids of
    the candidate without a bounds check.  With both ids below the number of
    tracks the out-of-range access is never reached; with [track_id_a] out of
    range it is reached as soon as the first time check passes, and with
    [track_id_b] out of range as soon as the checks on track a pass. *)
Theorem processLoopClosure_track_ids_unchecked (loop_closure : RelativePose)
    (s : IncrementalEstimator) :
  ((track_id_a loop_closure < length (laser_tracks_ s))%nat →
   (track_id_b loop_closure < length (laser_tracks_ s))%nat →
   outcome (processLoopClosure loop_closure s) ≠ Undefined)
  ∧ (time_a_ns loop_closure < time_b_ns loop_closure →
     (length (laser_tracks_ s) ≤ track_id_a loop_closure)%nat →
     outcome (processLoopClosure loop_closure s) = Undefined)
  ∧ (∀ track_a : LaserTrack,
       time_a_ns loop_closure < time_b_ns loop_closure →
       laser_tracks_ s !! track_id_a loop_closure = Some track_a →
       getMinTime track_a ≤ time_a_ns loop_closure ≤ getMaxTime track_a →
       (length (laser_tracks_ s) ≤ track_id_b loop_closure)%nat →
       outcome (processLoopClosure loop_closure s) = Undefined).
Proof.
  split; [|split].
  - intros Ha Hb.
    apply lookup_lt_is_Some in Ha as [track_a Ha].
    apply lookup_lt_is_Some in Hb as [track_b Hb].
    unfold processLoopClosure, icp_step. run_all; by cbn.
  - intros Hlt Ha. apply lookup_ge_None in Ha. apply Z.ltb_lt in Hlt.
    unfold processLoopClosure. run. rewrite Hlt. by run.
  - intros track_a Hlt Ha [Hmin Hmax] Hb. apply lookup_ge_None in Hb.
    apply Z.ltb_lt in Hlt. apply Z.leb_le in Hmin, Hmax.
    unfold processLoopClosure. run. rewrite Hlt. run. rewrite Hmin. run.
    rewrite Hmax. by run.
Qed.

(** ** A loop closure that passes validation *)

Lemma submitted_app (evs1 evs2 : list Event) :
  submitted (evs1 ++ evs2) = submitted evs1 ++ submitted evs2.
Proof. apply flat_map_app. Qed.

Lemma submitted_sinks (result : gmap Key SE3) (ids : list nat) :
  submitted ((λ i, TrackSink i result) <$> ids) = [].
Proof. induction ids as [|i ids IH]; [done|]. exact IH. Qed.

Lemma sinks_app (evs1 evs2 : list Event) :
  sinks (evs1 ++ evs2) = sinks evs1 ++ sinks evs2.
Proof. apply flat_map_app. Qed.

Lemma sinks_sinks (result : gmap Key SE3) (ids : list nat) :
  sinks ((λ i, TrackSink i result) <$> ids) = (λ i, (i, result)) <$> ids.
Proof. induction ids as [|i ids IH]; [done|]. cbn. by rewrite <- IH. Qed.

(** The whole run of [processLoopClosure] on a candidate whose track ids are
    in range, whose times pass the five checks, and whose ICP step, if it is
    switched on, succeeds. *)
Lemma processLoopClosure_run (loop_closure : RelativePose) (s : IncrementalEstimator)
    (track_a track_b : LaserTrack) (measured : SE3) :
  laser_tracks_ s !! track_id_a loop_closure = Some track_a →
  laser_tracks_ s !! track_id_b loop_closure = Some track_b →
  time_a_ns loop_closure < time_b_ns loop_closure →
  getMinTime track_a ≤ time_a_ns loop_closure ≤ getMaxTime track_a →
  getMinTime track_b ≤ time_b_ns loop_closure ≤ getMaxTime track_b →
  (if do_icp_step_on_loop_closures (params_ s)
   then icp_compute (icp_ s)
          (buildSubMapAroundTime track_b (time_b_ns loop_closure)
                                 (loop_closures_sub_maps_radius (params_ s)))
          (buildSubMapAroundTime track_a (time_a_ns loop_closure)
                                 (loop_closures_sub_maps_radius (params_ s)))
          (T_a_b loop_closure)
   else Some (T_a_b loop_closure)) = Some measured →
  let new_factor :=
    {| factor_noise := loop_closure_noise_model_ s;
       factor_measured := measured;
       factor_expression :=
         Compose (Inverse (getValueExpression track_a (time_a_ns loop_closure)))
                 (getValueExpression track_b (time_b_ns loop_closure)) |} in
  let slot := factor_indice_to_remove_ s in
  let b1 := (ISAM2_update [new_factor] ∅ [slot] (isam2_ s)).2 in
  let b2 := (ISAM2_update [] ∅ [] b1).2 in
  let b3 := (ISAM2_update [] ∅ [] b2).2 in
  let result := ISAM2_calculateEstimate b3 in
  processLoopClosure loop_closure s =
    mkRun (Returned ())
          (set_laser_tracks (updateFromGTSAMValues result <$> laser_tracks_ s)
                            (set_isam2 b3 s))
          ([Lock; TrackAccess (track_id_a loop_closure);
            TrackAccess (track_id_a loop_closure);
            TrackAccess (track_id_b loop_closure);
            TrackAccess (track_id_b loop_closure)]
           ++ (if do_icp_step_on_loop_closures (params_ s)
               then [TrackAccess (track_id_a loop_closure);
                     TrackAccess (track_id_b loop_closure)]
               else [])
           ++ [TrackAccess (track_id_b loop_closure);
               TrackAccess (track_id_a loop_closure);
               Lock; SlotRead; Update [new_factor] ∅ [slot];
               Update [] ∅ []; Update [] ∅ []; CalculateEstimate; Unlock]
           ++ ((λ i, TrackSink i result) <$> seq 0 (length (laser_tracks_ s)))
           ++ [Unlock]).
Proof.
  intros Ha Hb Hlt [Hamin Hamax] [Hbmin Hbmax] Hicp.
  apply Z.ltb_lt in Hlt. apply Z.leb_le in Hamin, Hamax, Hbmin, Hbmax.
  unfold processLoopClosure, icp_step. run.
  rewrite Hlt. run. rewrite Hamin. run. rewrite Hamax. run.
  rewrite Hbmin. run. rewrite Hbmax. run.
  destruct (do_icp_step_on_loop_closures (params_ s)); run.
  - rewrite Hicp. run. reflexivity.
  - injection Hicp as <-. reflexivity.
Qed.

Lemma eval_relative (values : gmap Key SE3) (track_a track_b : LaserTrack)
    (time_a time_b : Time) (pose_a pose_b : SE3) :
  values !! (laser_track_id track_a, time_a) = Some pose_a →
  values !! (laser_track_id track_b, time_b) = Some pose_b →
  eval values (Compose (Inverse (getValueExpression track_a time_a))
                       (getValueExpression track_b time_b))
  = Some (se3_compose (se3_inverse pose_a) pose_b).
Proof. intros Ha Hb. cbn [eval getValueExpression]. by rewrite Ha, Hb. Qed.

(** C7.  For a candidate that passes validation (and whose ICP step, when
    switched on, yields a transform), [processLoopClosure] returns and hands
    the backend exactly one factor: its noise model is the estimator's loop
    closure noise model, its measurement is the (possibly refined) transform,
    and its expression is the pose of track a at [time_a] inverted and
    composed with the pose of track b at [time_b]. *)
Theorem processLoopClosure_builds_one_factor (loop_closure : RelativePose)
    (s : IncrementalEstimator) (track_a track_b : LaserTrack) (measured : SE3) :
  laser_tracks_ s !! track_id_a loop_closure = Some track_a →
  laser_tracks_ s !! track_id_b loop_closure = Some track_b →
  time_a_ns loop_closure < time_b_ns loop_closure →
  getMinTime track_a ≤ time_a_ns loop_closure ≤ getMaxTime track_a →
  getMinTime track_b ≤ time_b_ns loop_closure ≤ getMaxTime track_b →
  (if do_icp_step_on_loop_closures (params_ s)
   then icp_compute (icp_ s)
          (buildSubMapAroundTime track_b (time_b_ns loop_closure)
                                 (loop_closures_sub_maps_radius (params_ s)))
          (buildSubMapAroundTime track_a (time_a_ns loop_closure)
                                 (loop_closures_sub_maps_radius (params_ s)))
          (T_a_b loop_closure)
   else Some (T_a_b loop_closure)) = Some measured →
  outcome (processLoopClosure loop_closure s) = Returned ()
  ∧ submitted (events (processLoopClosure loop_closure s)) =
      [ {| factor_noise := loop_closure_noise_model_ s;
           factor_measured := measured;
           factor_expression :=
             Compose (Inverse (getValueExpression track_a (time_a_ns loop_closure)))
                     (getValueExpression track_b (time_b_ns loop_closure)) |} ]
  ∧ ∀ (values : gmap Key SE3) (pose_a pose_b : SE3),
      values !! (laser_track_id track_a, time_a_ns loop_closure) = Some pose_a →
      values !! (laser_track_id track_b, time_b_ns loop_closure) = Some pose_b →
      (eval values <$> (factor_expression <$>
         submitted (events (processLoopClosure loop_closure s))))
      = [Some (se3_compose (se3_inverse pose_a) pose_b)].
Proof.
  intros Ha Hb Hlt Hbounds_a Hbounds_b Hicp.
  rewrite (processLoopClosure_run _ _ _ _ _ Ha Hb Hlt Hbounds_a Hbounds_b Hicp).
  cbn [outcome events].
  assert (∀ f : ExpressionFactor, submitted
    ([Lock; TrackAccess (track_id_a loop_closure); TrackAccess (track_id_a loop_closure);
      TrackAccess (track_id_b loop_closure); TrackAccess (track_id_b loop_closure)]
     ++ (if do_icp_step_on_loop_closures (params_ s)
         then [TrackAccess (track_id_a loop_closure); TrackAccess (track_id_b loop_closure)]
         else [])
     ++ [TrackAccess (track_id_b loop_closure); TrackAccess (track_id_a loop_closure);
         Lock; SlotRead; Update [f] ∅ [factor_indice_to_remove_ s];
         Update [] ∅ []; Update [] ∅ []; CalculateEstimate; Unlock]
     ++ ((λ i, TrackSink i
            (ISAM2_calculateEstimate
               (ISAM2_update [] ∅ []
                  (ISAM2_update [] ∅ []
                     (ISAM2_update [f] ∅ [factor_indice_to_remove_ s] (isam2_ s)).2).2).2))
           <$> seq 0 (length (laser_tracks_ s)))
     ++ [Unlock]) = [f]) as Hsub.
  { intros f. rewrite !submitted_app, submitted_sinks.
    by destruct (do_icp_step_on_loop_closures (params_ s)). }
  rewrite Hsub. split; [done|]. split; [done|].
  intros values pose_a pose_b Hpa Hpb. cbn [fmap list_fmap factor_expression].
  by rewrite (eval_relative _ _ _ _ _ _ _ Hpa Hpb).
Qed.

(** C8.  For such a candidate, once the factor has been submitted and the
    estimate computed, [processLoopClosure] passes that estimate to the sink
    of every track of the vector, in order, and to nothing else: each stored
    track is replaced by its update from the estimate. *)
Theorem processLoopClosure_updates_every_track (loop_closure : RelativePose)
    (s : IncrementalEstimator) (track_a track_b : LaserTrack) (measured : SE3) :
  laser_tracks_ s !! track_id_a loop_closure = Some track_a →
  laser_tracks_ s !! track_id_b loop_closure = Some track_b →
  time_a_ns loop_closure < time_b_ns loop_closure →
  getMinTime track_a ≤ time_a_ns loop_closure ≤ getMaxTime track_a →
  getMinTime track_b ≤ time_b_ns loop_closure ≤ getMaxTime track_b →
  (if do_icp_step_on_loop_closures (params_ s)
   then icp_compute (icp_ s)
          (buildSubMapAroundTime track_b (time_b_ns loop_closure)
                                 (loop_closures_sub_maps_radius (params_ s)))
          (buildSubMapAroundTime track_a (time_a_ns loop_closure)
                                 (loop_closures_sub_maps_radius (params_ s)))
          (T_a_b loop_closure)
   else Some (T_a_b loop_closure)) = Some measured →
  outcome (processLoopClosure loop_closure s) = Returned ()
  ∧ laser_tracks_ (final (processLoopClosure loop_closure s)) =
      updateFromGTSAMValues
        (ISAM2_calculateEstimate (isam2_ (final (processLoopClosure loop_closure s))))
      <$> laser_tracks_ s
  ∧ sinks (events (processLoopClosure loop_closure s)) =
      (λ i, (i, ISAM2_calculateEstimate
                  (isam2_ (final (processLoopClosure loop_closure s)))))
      <$> seq 0 (length (laser_tracks_ s))
  ∧ ∃ before : list Event,
      events (processLoopClosure loop_closure s) =
        before
        ++ ((λ i, TrackSink i
               (ISAM2_calculateEstimate
                  (isam2_ (final (processLoopClosure loop_closure s)))))
              <$> seq 0 (length (laser_tracks_ s)))
        ++ [Unlock]
      ∧ length (submitted before) = 1%nat.
Proof.
  intros Ha Hb Hlt Hbounds_a Hbounds_b Hicp.
  rewrite (processLoopClosure_run _ _ _ _ _ Ha Hb Hlt Hbounds_a Hbounds_b Hicp).
  cbn [outcome events final isam2_ laser_tracks_ set_laser_tracks set_isam2].
  split; [reflexivity|]. split; [reflexivity|]. split.
  - rewrite !sinks_app, sinks_sinks.
    destruct (do_icp_step_on_loop_closures (params_ s));
      cbn [sinks flat_map app]; apply app_nil_r.
  - match goal with
    | |- ∃ before, ?l1 ++ ?l2 ++ ?l3 ++ ?l4 ++ ?l5 = _ ∧ _ => exists (l1 ++ l2 ++ l3)
    end.
    split.
    + rewrite <- !app_assoc. reflexivity.
    + rewrite !submitted_app.
      destruct (do_icp_step_on_loop_closures (params_ s)); reflexivity.
Qed.

(** ** Who writes the factor index *)

Lemma keeps_slot_ret {A : Type} (a : A) : keeps_slot (M_ret a : M A).
Proof. intros s. split; [reflexivity|constructor]. Qed.

Lemma keeps_slot_bind {A B : Type} (m : M A) (f : A → M B) :
  keeps_slot m → (∀ a, keeps_slot (f a)) → keeps_slot (M_bind f m).
Proof.
  intros Hm Hf s. unfold M_bind. destruct (Hm s) as [Hslot Hev].
  destruct (m s) as [[a|message| |] s1 ev1]; cbn [final events] in *;
    try (split; assumption).
  destruct (Hf a s1) as [Hslot' Hev']. unfold prepend. cbn [final events].
  split; [congruence|]. by apply Forall_app.
Qed.

Lemma keeps_slot_emit (e : Event) : is_slot_write e = false → keeps_slot (emit e).
Proof. intros He s. split; [reflexivity|]. by repeat constructor. Qed.

Lemma keeps_slot_fatal {A : Type} (message : string) : keeps_slot (fatal message : M A).
Proof. intros s. split; [reflexivity|constructor]. Qed.

Lemma keeps_slot_throw {A : Type} : keeps_slot (throw : M A).
Proof. intros s. split; [reflexivity|constructor]. Qed.

Lemma keeps_slot_get {A : Type} (field : IncrementalEstimator → A) : keeps_slot (get field).
Proof. intros s. split; [reflexivity|constructor]. Qed.

Lemma keeps_slot_CHECK (condition : bool) (message : string) :
  keeps_slot (CHECK condition message : M ()).
Proof. destruct condition; [apply keeps_slot_ret|apply keeps_slot_fatal]. Qed.

Lemma keeps_slot_laser_tracks_at (i : nat) : keeps_slot (laser_tracks_at i : M LaserTrack).
Proof.
  intros s. unfold laser_tracks_at.
  destruct (laser_tracks_ s !! i); (split; [reflexivity|by repeat constructor]).
Qed.

Lemma keeps_slot_isam2_update (new_factors : NonlinearFactorGraph)
    (new_values : gmap Key SE3) (remove : list nat) :
  keeps_slot (isam2_update new_factors new_values remove).
Proof. intros s. split; [reflexivity|by repeat constructor]. Qed.

Lemma keeps_slot_isam2_calculateEstimate :
  keeps_slot (isam2_calculateEstimate : M (gmap Key SE3)).
Proof. intros s. split; [reflexivity|by repeat constructor]. Qed.

Lemma keeps_slot_read_factor_indice_to_remove :
  keeps_slot (read_factor_indice_to_remove : M nat).
Proof. intros s. split; [reflexivity|by repeat constructor]. Qed.

Lemma keeps_slot_update_all_tracks (result : gmap Key SE3) :
  keeps_slot (update_all_tracks result).
Proof.
  intros s. split; [reflexivity|]. cbn [events update_all_tracks].
  apply Forall_fmap, Forall_forall. reflexivity.
Qed.

Lemma keeps_slot_lock_guard {A : Type} (body : M A) :
  keeps_slot body → keeps_slot (lock_guard body).
Proof.
  intros Hbody s. destruct (Hbody s) as [Hslot Hev].
  unfold lock_guard, guard_exit, prepend.
  destruct (body s) as [[a|message| |] s1 ev1]; cbn [outcome final events] in *;
    (split; [exact Hslot|]); cbn [app];
    try (constructor; [reflexivity|exact Hev]);
    (constructor; [reflexivity|]); (apply Forall_app; split; [exact Hev|]);
    by repeat constructor.
Qed.

Create HintDb keeps_slot.

#[local] Hint Resolve keeps_slot_ret keeps_slot_fatal keeps_slot_throw keeps_slot_get
  keeps_slot_CHECK keeps_slot_laser_tracks_at keeps_slot_isam2_update
  keeps_slot_isam2_calculateEstimate keeps_slot_read_factor_indice_to_remove
  keeps_slot_update_all_tracks : keeps_slot.

(** Walk down the binds of a member function, leaving each primitive step to
    the hints. *)
Ltac keeps_slot_steps :=
  repeat first
    [ progress monad_unfold
    | apply keeps_slot_lock_guard
    | apply keeps_slot_emit; reflexivity
    | solve [auto with keeps_slot]
    | apply keeps_slot_bind; [|intros ?]
    | match goal with
      | |- keeps_slot (if ?c then _ else _) => destruct c
      | |- keeps_slot (match ?o with Some _ => _ | None => _ end) => destruct o
      end ].

Lemma keeps_slot_estimate (new_factors : NonlinearFactorGraph) (new_values : gmap Key SE3) :
  keeps_slot (estimate new_factors new_values).
Proof. unfold estimate. keeps_slot_steps. Qed.

Lemma keeps_slot_estimateAndRemove (new_factors : NonlinearFactorGraph)
    (new_values : gmap Key SE3) :
  keeps_slot (estimateAndRemove new_factors new_values).
Proof. unfold estimateAndRemove. keeps_slot_steps. Qed.

#[local] Hint Resolve keeps_slot_estimateAndRemove : keeps_slot.

Lemma keeps_slot_getLaserTrack (laser_track_id : nat) :
  keeps_slot (getLaserTrack laser_track_id : M LaserTrack).
Proof. unfold getLaserTrack. keeps_slot_steps. Qed.

Lemma keeps_slot_processLoopClosure (loop_closure : RelativePose) :
  keeps_slot (processLoopClosure loop_closure).
Proof.
  unfold processLoopClosure, icp_step. keeps_slot_steps.
Qed.

Lemma keeps_slot_registerPrior (new_factors : NonlinearFactorGraph)
    (new_values : gmap Key SE3) (worker_id : nat) :
  (worker_id =? 1)%nat = false →
  keeps_slot (registerPrior new_factors new_values worker_id).
Proof. intros Hw. unfold registerPrior. rewrite Hw. keeps_slot_steps. Qed.

(** C5.  Whatever operation is performed, in whatever state: unless it is a
    [registerPrior] call with worker id 1, the factor index held by the
    estimator is the same after the call as before, and the call has not
    written it. *)
Theorem factor_index_written_only_by_worker_1 (op : Operation) (s : IncrementalEstimator) :
  is_anchor_registerPrior op = false →
  factor_indice_to_remove_ (final (perform op s)) = factor_indice_to_remove_ s
  ∧ Forall (λ e, is_slot_write e = false) (events (perform op s)).
Proof.
  intros Hop. revert s. change (keeps_slot (perform op)).
  destruct op as [lc|fs vs|fs vs|fs vs w|id]; cbn [perform].
  - apply keeps_slot_processLoopClosure.
  - apply keeps_slot_bind; [apply keeps_slot_estimate|intros ?; apply keeps_slot_ret].
  - apply keeps_slot_bind; [apply keeps_slot_estimateAndRemove|intros ?; apply keeps_slot_ret].
  - apply keeps_slot_bind; [by apply keeps_slot_registerPrior|intros ?; apply keeps_slot_ret].
  - apply keeps_slot_bind; [apply keeps_slot_getLaserTrack|intros ?; apply keeps_slot_ret].
Qed.

(** What the call of worker 1 does write: the slot the backend gave to the one
    new factor.  After it the index names a constraint the backend holds. *)
Lemma registerPrior_anchor_run (prior : ExpressionFactor) (new_values : gmap Key SE3)
    (s : IncrementalEstimator) :
  let index := length (nonlinearFactors_ (isam2_ s)) in
  outcome (registerPrior [prior] new_values 1 s)
    = Returned (ISAM2_calculateEstimate (isam2_ (final (registerPrior [prior] new_values 1 s))))
  ∧ factor_indice_to_remove_ (final (registerPrior [prior] new_values 1 s)) = index
  ∧ nonlinearFactors_ (isam2_ (final (registerPrior [prior] new_values 1 s))) !! index
      = Some (Some prior)
  ∧ events (registerPrior [prior] new_values 1 s)
      = [Update [prior] new_values []; SlotWrite index; Update [] ∅ []; Update [] ∅ [];
         CalculateEstimate].
Proof.
  intros index. unfold registerPrior. run.
  change ((length (newFactorsIndices
            (ISAM2_update [prior] new_values [] (isam2_ s)).1) =? 1)%nat) with true.
  change ((1 =? 1)%nat) with true. run.
  change (newFactorsIndices (ISAM2_update [prior] new_values [] (isam2_ s)).1 !! 0%nat)
    with (Some index).
  run. split; [reflexivity|]. split; [reflexivity|]. split; [|reflexivity].
  cbn [final prepend M_ret isam2_ set_isam2 set_factor_indice_to_remove
       ISAM2_update snd nonlinearFactors_ remove_factors foldl fmap list_fmap].
  rewrite !app_nil_r. by rewrite lookup_app_r, Nat.sub_diag.
Qed.

(** ** The mutex *)

Lemma guarded_sinks (depth : nat) (result : gmap Key SE3) (ids : list nat)
    (evs : list Event) :
  guarded (S depth) (((λ i, TrackSink i result) <$> ids) ++ evs) = guarded (S depth) evs.
Proof. induction ids as [|i ids IH]; [reflexivity|]. exact IH. Qed.

Ltac guarded_leaf :=
  cbn [outcome final events prepend guard_exit update_all_tracks app guarded
       Nat.ltb Nat.leb andb pred M_ret];
  rewrite ?guarded_sinks; reflexivity.

(** X4.  [estimate], [estimateAndRemove], [getLaserTrack] and
    [processLoopClosure] use the shared members (backend, track vector,
    factor index) only while holding the mutex, however the call ends. *)
Lemma locked_member_functions (new_factors : NonlinearFactorGraph)
    (new_values : gmap Key SE3) (laser_track_id : nat) (loop_closure : RelativePose)
    (s : IncrementalEstimator) :
  guarded 0 (events (estimate new_factors new_values s)) = true
  ∧ guarded 0 (events (estimateAndRemove new_factors new_values s)) = true
  ∧ guarded 0 (events (getLaserTrack laser_track_id s)) = true
  ∧ guarded 0 (events (processLoopClosure loop_closure s)) = true.
Proof.
  split; [by rewrite estimate_run|]. split; [by rewrite estimateAndRemove_run|]. split.
  - unfold getLaserTrack. run_all; guarded_leaf.
  - unfold processLoopClosure, icp_step. run_all; guarded_leaf.
Qed.

(** C1.  [registerPrior] is the one public member function that never takes
    the mutex: called by a thread that does not hold it, it starts with an
    [update] of the backend made without the lock, and no lock or unlock
    occurs anywhere in the call. *)
Theorem registerPrior_takes_no_lock (new_factors : NonlinearFactorGraph)
    (new_values : gmap Key SE3) (worker_id : nat) (s : IncrementalEstimator) :
  guarded 0 (events (registerPrior new_factors new_values worker_id s)) = false
  ∧ Forall (λ e, e ≠ Lock ∧ e ≠ Unlock)
           (events (registerPrior new_factors new_values worker_id s))
  ∧ head (events (registerPrior new_factors new_values worker_id s))
      = Some (Update new_factors new_values []).
Proof.
  unfold registerPrior.
  run_all; cbn [events prepend app guarded Nat.ltb Nat.leb andb head M_ret];
    (split; [reflexivity|]); (split; [|reflexivity]);
    repeat (constructor; [split; discriminate|]); constructor.
Qed.

(** ** Construction *)

Lemma construction_tracks (open_file : string → option string) (uninitialized : nat)
    (parameters : EstimatorParams) (n : nat) :
  laser_tracks_ (IncrementalEstimator_new (SE3 := SE3) open_file uninitialized parameters n)
    = (λ i, {| laser_track_id := i; trajectory := [] |}) <$> seq 0 n
  ∧ length (laser_tracks_
      (IncrementalEstimator_new (SE3 := SE3) open_file uninitialized parameters n)) = n.
Proof.
  split; [reflexivity|]. cbn [laser_tracks_ IncrementalEstimator_new].
  by rewrite length_fmap, length_seq.
Qed.

(** C3.  Whatever the estimation parameters, the constructor
    configures the backend with relinearization skip 1 and relinearization
    threshold 0.001. *)
Theorem construction_fixes_relinearization (open_file : string → option string)
    (uninitialized : nat) (parameters : EstimatorParams) (n : nat) :
  relinearizeSkip (isam2_params (isam2_
    (IncrementalEstimator_new (SE3 := SE3) open_file uninitialized parameters n))) = 1
  ∧ relinearizeThreshold (isam2_params (isam2_
    (IncrementalEstimator_new (SE3 := SE3) open_file uninitialized parameters n)))
    = (1 # 1000)%Q.
Proof. split; reflexivity. Qed.

(** ** What a call leaves as it was *)

Section Preserves.

Variable R : IncrementalEstimator → IncrementalEstimator → Prop.
Hypothesis R_refl : ∀ s, R s s.
Hypothesis R_trans : ∀ s1 s2 s3, R s1 s2 → R s2 s3 → R s1 s3.

Lemma preserves_ret {A : Type} (a : A) : preserves R (M_ret a : M A).
Proof. intros s. apply R_refl. Qed.

Lemma preserves_bind {A B : Type} (m : M A) (f : A → M B) :
  preserves R m → (∀ a, preserves R (f a)) → preserves R (M_bind f m).
Proof.
  intros Hm Hf s. unfold M_bind. specialize (Hm s).
  destruct (m s) as [[a|message| |] s1 ev1]; cbn [final] in *; try assumption.
  unfold prepend. cbn [final]. exact (R_trans _ _ _ Hm (Hf a s1)).
Qed.

Lemma preserves_emit (e : Event) : preserves R (emit e).
Proof. intros s. apply R_refl. Qed.

Lemma preserves_fatal {A : Type} (message : string) : preserves R (fatal message : M A).
Proof. intros s. apply R_refl. Qed.

Lemma preserves_throw {A : Type} : preserves R (throw : M A).
Proof. intros s. apply R_refl. Qed.

Lemma preserves_get {A : Type} (field : IncrementalEstimator → A) : preserves R (get field).
Proof. intros s. apply R_refl. Qed.

Lemma preserves_CHECK (condition : bool) (message : string) :
  preserves R (CHECK condition message : M ()).
Proof. destruct condition; [apply preserves_ret|apply preserves_fatal]. Qed.

Lemma preserves_laser_tracks_at (i : nat) : preserves R (laser_tracks_at i : M LaserTrack).
Proof. intros s. unfold laser_tracks_at. destruct (laser_tracks_ s !! i); apply R_refl. Qed.

Lemma preserves_isam2_calculateEstimate :
  preserves R (isam2_calculateEstimate : M (gmap Key SE3)).
Proof. intros s. apply R_refl. Qed.

Lemma preserves_read_factor_indice_to_remove :
  preserves R (read_factor_indice_to_remove : M nat).
Proof. intros s. apply R_refl. Qed.

Lemma preserves_isam2_update (new_factors : NonlinearFactorGraph)
    (new_values : gmap Key SE3) (remove : list nat) :
  (∀ b s, R s (set_isam2 b s)) →
  preserves R (isam2_update new_factors new_values remove).
Proof. intros H s. apply H. Qed.

Lemma preserves_write_factor_indice_to_remove (i : nat) :
  (∀ s, R s (set_factor_indice_to_remove i s)) →
  preserves R (write_factor_indice_to_remove i).
Proof. intros H s. apply H. Qed.

Lemma preserves_update_all_tracks (result : gmap Key SE3) :
  (∀ s, R s (set_laser_tracks (updateFromGTSAMValues result <$> laser_tracks_ s) s)) →
  preserves R (update_all_tracks result).
Proof. intros H s. apply H. Qed.

Lemma preserves_lock_guard {A : Type} (body : M A) :
  preserves R body → preserves R (lock_guard body).
Proof.
  intros Hbody s. specialize (Hbody s). unfold lock_guard, guard_exit, prepend.
  by destruct (body s) as [[a|message| |] s1 ev1].
Qed.

End Preserves.

(** Walk down a member function; [refl] and [trans] are the two facts about
    the relation, the writes are discharged by computation. *)
Ltac preserves_steps refl trans :=
  repeat first
    [ progress monad_unfold
    | apply preserves_lock_guard
    | apply (preserves_ret _ refl)
    | apply (preserves_emit _ refl)
    | apply (preserves_fatal _ refl)
    | apply (preserves_throw _ refl)
    | apply (preserves_get _ refl)
    | apply (preserves_CHECK _ refl)
    | apply (preserves_laser_tracks_at _ refl)
    | apply (preserves_isam2_calculateEstimate _ refl)
    | apply (preserves_read_factor_indice_to_remove _ refl)
    | apply preserves_isam2_update; intros; solve [repeat split]
    | apply preserves_write_factor_indice_to_remove; intros; solve [repeat split]
    | apply preserves_update_all_tracks; intros;
        solve [repeat split; cbn [laser_tracks_ set_laser_tracks]; apply length_fmap]
    | match goal with
      | |- preserves _ (if ?c then _ else _) => destruct c
      | |- preserves _ (match ?o with Some _ => _ | None => _ end) => destruct o
      end
    | apply (preserves_bind _ trans); [|intros ?] ].

Lemma same_configuration_refl (s : IncrementalEstimator) : same_configuration s s.
Proof. by repeat split. Qed.

Lemma same_configuration_trans (s1 s2 s3 : IncrementalEstimator) :
  same_configuration s1 s2 → same_configuration s2 s3 → same_configuration s1 s3.
Proof.
  intros (H1 & H2 & H3 & H4 & H5) (K1 & K2 & K3 & K4 & K5).
  repeat split; congruence.
Qed.

Lemma same_tracks_refl (s : IncrementalEstimator) : same_tracks s s.
Proof. reflexivity. Qed.

Lemma same_tracks_trans (s1 s2 s3 : IncrementalEstimator) :
  same_tracks s1 s2 → same_tracks s2 s3 → same_tracks s1 s3.
Proof. unfold same_tracks. congruence. Qed.

Lemma perform_same_configuration (op : Operation) :
  preserves same_configuration (perform op).
Proof.
  destruct op; unfold perform, processLoopClosure, icp_step, estimate,
    estimateAndRemove, registerPrior, getLaserTrack;
    preserves_steps same_configuration_refl same_configuration_trans.
Qed.

Lemma perform_all_same_configuration (ops : list Operation) (s : IncrementalEstimator) :
  same_configuration s (perform_all ops s).
Proof.
  revert s. induction ops as [|op ops IH]; intros s.
  - apply same_configuration_refl.
  - cbn [perform_all]. pose proof (perform_same_configuration op s) as Hop.
    destruct (outcome (perform op s)); try exact Hop.
    exact (same_configuration_trans _ _ _ Hop (IH _)).
Qed.

(** X3.  Whatever public calls are made on an estimator, in whatever order and
    however they end, its parameters, its number of workers, its loop closure
    noise model, its ICP configuration and the number of its tracks stay as
    they were. *)
Theorem configuration_is_invariant (ops : list Operation) (s : IncrementalEstimator) :
  params_ (perform_all ops s) = params_ s
  ∧ n_laser_slam_workers_ (perform_all ops s) = n_laser_slam_workers_ s
  ∧ loop_closure_noise_model_ (perform_all ops s) = loop_closure_noise_model_ s
  ∧ icp_ (perform_all ops s) = icp_ s
  ∧ length (laser_tracks_ (perform_all ops s)) = length (laser_tracks_ s).
Proof. exact (perform_all_same_configuration ops s). Qed.

(** X12.  What the constructor chooses persists: after construction for [n]
    workers and any sequence of public calls, the estimator still has [n]
    tracks, its loop closure noise model is the diagonal model of the
    configured sigmas, wrapped in a robust Cauchy model exactly when the
    parameters ask for it, and its ICP configuration is the one read from the
    configuration file, or the default one when that file could not be
    opened. *)
Theorem construction_choices_persist (open_file : string → option string)
    (uninitialized : nat) (parameters : EstimatorParams) (n : nat) (ops : list Operation) :
  length (laser_tracks_ (perform_all ops
    (IncrementalEstimator_new (SE3 := SE3) open_file uninitialized parameters n))) = n
  ∧ loop_closure_noise_model_ (perform_all ops
      (IncrementalEstimator_new (SE3 := SE3) open_file uninitialized parameters n)) =
      (if add_m_estimator_on_loop_closures parameters
       then Robust_Create (Cauchy 1) (Diagonal_Sigmas (loop_closure_noise_model parameters))
       else Diagonal_Sigmas (loop_closure_noise_model parameters))
  ∧ icp_ (perform_all ops
      (IncrementalEstimator_new (SE3 := SE3) open_file uninitialized parameters n)) =
      match open_file (icp_configuration_file (laser_track_params parameters)) with
      | Some contents => loadFromYaml contents
      | None => setDefault
      end.
Proof.
  destruct (perform_all_same_configuration ops
    (IncrementalEstimator_new (SE3 := SE3) open_file uninitialized parameters n))
    as (_ & _ & Hnoise & Hicp & Hlength).
  rewrite Hlength, Hnoise, Hicp. split; [|split; reflexivity].
  cbn [laser_tracks_ IncrementalEstimator_new]. by rewrite length_fmap, length_seq.
Qed.

Lemma same_tracks_estimate (new_factors : NonlinearFactorGraph) (new_values : gmap Key SE3) :
  preserves same_tracks (estimate new_factors new_values).
Proof. unfold estimate. preserves_steps same_tracks_refl same_tracks_trans. Qed.

Lemma same_tracks_estimateAndRemove (new_factors : NonlinearFactorGraph)
    (new_values : gmap Key SE3) :
  preserves same_tracks (estimateAndRemove new_factors new_values).
Proof. unfold estimateAndRemove. preserves_steps same_tracks_refl same_tracks_trans. Qed.

Lemma same_tracks_registerPrior (new_factors : NonlinearFactorGraph)
    (new_values : gmap Key SE3) (worker_id : nat) :
  preserves same_tracks (registerPrior new_factors new_values worker_id).
Proof. unfold registerPrior. preserves_steps same_tracks_refl same_tracks_trans. Qed.

Lemma same_tracks_getLaserTrack (laser_track_id : nat) :
  preserves same_tracks (getLaserTrack laser_track_id : M LaserTrack).
Proof. unfold getLaserTrack. preserves_steps same_tracks_refl same_tracks_trans. Qed.

(** X10.  Only [processLoopClosure] writes to the tracks: [estimate],
    [estimateAndRemove], [registerPrior] and [getLaserTrack] leave the track
    vector exactly as it was, however they end. *)
Theorem tracks_written_only_by_processLoopClosure (new_factors : NonlinearFactorGraph)
    (new_values : gmap Key SE3) (worker_id laser_track_id : nat)
    (s : IncrementalEstimator) :
  laser_tracks_ (final (estimate new_factors new_values s)) = laser_tracks_ s
  ∧ laser_tracks_ (final (estimateAndRemove new_factors new_values s)) = laser_tracks_ s
  ∧ laser_tracks_ (final (registerPrior new_factors new_values worker_id s))
      = laser_tracks_ s
  ∧ laser_tracks_ (final (getLaserTrack laser_track_id s)) = laser_tracks_ s.
Proof.
  split; [exact (same_tracks_estimate new_factors new_values s)|].
  split; [exact (same_tracks_estimateAndRemove new_factors new_values s)|].
  split; [exact (same_tracks_registerPrior new_factors new_values worker_id s)|].
  exact (same_tracks_getLaserTrack laser_track_id s).
Qed.

(** ** [getLaserTrack] *)

Lemma getLaserTrack_run (laser_track_id : nat) (s : IncrementalEstimator) :
  getLaserTrack laser_track_id s =
    match laser_tracks_ s !! laser_track_id with
    | Some track => mkRun (Returned track) s [Lock; TrackAccess laser_track_id; Unlock]
    | None => mkRun (Fatal EmptyString) s [Lock]
    end.
Proof.
  unfold getLaserTrack. run. change (0 <=? laser_track_id)%nat with true. run.
  destruct (Nat.ltb_spec laser_track_id (length (laser_tracks_ s))) as [Hlt|Hge]; run.
  - apply lookup_lt_is_Some in Hlt as [track Htrack]. rewrite Htrack. run. reflexivity.
  - apply lookup_ge_None in Hge. rewrite Hge. reflexivity.
Qed.

(** X1.  [getLaserTrack] checks its argument against the number of tracks: for
    an id in range it returns the stored track, for any other id it aborts in
    the [CHECK]; it never indexes the vector out of range and never changes
    the estimator. *)
Theorem getLaserTrack_checks_bounds (laser_track_id : nat) (s : IncrementalEstimator) :
  outcome (getLaserTrack laser_track_id s) =
    match laser_tracks_ s !! laser_track_id with
    | Some track => Returned track
    | None => Fatal EmptyString
    end
  ∧ final (getLaserTrack laser_track_id s) = s
  ∧ (TrackAccess laser_track_id ∈ events (getLaserTrack laser_track_id s)
     ↔ (laser_track_id < length (laser_tracks_ s))%nat).
Proof.
  rewrite getLaserTrack_run.
  destruct (laser_tracks_ s !! laser_track_id) as [track|] eqn:Hlookup;
    cbn [outcome final events].
  - apply lookup_lt_Some in Hlookup.
    split; [reflexivity|]. split; [reflexivity|]. split; [done|].
    intros _. rewrite !elem_of_cons. right. by left.
  - apply lookup_ge_None in Hlookup.
    split; [reflexivity|]. split; [reflexivity|]. split; [|lia].
    intros Hin. apply elem_of_cons in Hin as [Heq|Hin]; [discriminate|].
    by apply elem_of_nil in Hin.
Qed.

(** X2.  On an estimator just constructed for [n] workers, [getLaserTrack i]
    returns, for [i < n], the empty track of worker [i], and aborts for every
    other [i]. *)
Theorem getLaserTrack_after_construction (open_file : string → option string)
    (uninitialized : nat) (parameters : EstimatorParams) (n i : nat) :
  outcome (getLaserTrack i
    (IncrementalEstimator_new (SE3 := SE3) open_file uninitialized parameters n)) =
  if (i <? n)%nat then Returned {| laser_track_id := i; trajectory := [] |}
  else Fatal EmptyString.
Proof.
  rewrite getLaserTrack_run. cbn [laser_tracks_ IncrementalEstimator_new].
  rewrite list_lookup_fmap.
  destruct (Nat.ltb_spec i n) as [Hlt|Hge].
  - by rewrite lookup_seq_lt.
  - by rewrite lookup_seq_ge.
Qed.

(** ** The mutex, continued *)

Lemma max_depth_sinks (depth : nat) (result : gmap Key SE3) (ids : list nat)
    (evs : list Event) :
  max_depth depth (((λ i, TrackSink i result) <$> ids) ++ evs) = max_depth depth evs.
Proof. induction ids as [|i ids IH]; [reflexivity|]. exact IH. Qed.

Lemma depth_after_app (depth : nat) (evs1 evs2 : list Event) :
  depth_after depth (evs1 ++ evs2) = depth_after (depth_after depth evs1) evs2.
Proof.
  revert depth. induction evs1 as [|e evs1 IH]; intros depth; [reflexivity|].
  destruct e; cbn [app depth_after]; apply IH.
Qed.

(** A guarded function whose body leaves the mutex as it found it. *)
Lemma lock_guard_depth {A : Type} (body : M A) (s : IncrementalEstimator) :
  depth_after 1 (events (body s)) = 1%nat →
  depth_after 0 (events (lock_guard body s)) =
    match outcome (lock_guard body s) with
    | Returned _ | Thrown => 0%nat
    | Fatal _ | Undefined => 1%nat
    end.
Proof.
  intros Hbody. unfold lock_guard, guard_exit, prepend.
  destruct (body s) as [[a|message| |] s1 ev1];
    cbn [outcome final events app depth_after] in *;
    rewrite ?depth_after_app, Hbody; reflexivity.
Qed.

Lemma depth_after_only_sinks (depth : nat) (result : gmap Key SE3) (ids : list nat) :
  depth_after depth ((λ i, TrackSink i result) <$> ids) = depth.
Proof. induction ids as [|i ids IH]; [reflexivity|]. exact IH. Qed.

Ltac depth_leaf :=
  cbn [events prepend update_all_tracks app depth_after pred M_ret];
  rewrite ?depth_after_only_sinks; reflexivity.

(** X5.  The four member functions that take the mutex give it back when they
    return and when an exception of the matcher unwinds through them: after
    such a call the calling thread holds the mutex as often as before.  A
    call that ends in a failed [CHECK] or in an out-of-range access has not
    given it back.  [estimate] and [estimateAndRemove] always return, so they
    always give it back. *)
Theorem mutex_released_on_return (new_factors : NonlinearFactorGraph)
    (new_values : gmap Key SE3) (laser_track_id : nat) (loop_closure : RelativePose)
    (s : IncrementalEstimator) :
  depth_after 0 (events (estimate new_factors new_values s)) = 0%nat
  ∧ depth_after 0 (events (estimateAndRemove new_factors new_values s)) = 0%nat
  ∧ depth_after 0 (events (getLaserTrack laser_track_id s)) =
      match outcome (getLaserTrack laser_track_id s) with
      | Returned _ | Thrown => 0%nat
      | Fatal _ | Undefined => 1%nat
      end
  ∧ depth_after 0 (events (processLoopClosure loop_closure s)) =
      match outcome (processLoopClosure loop_closure s) with
      | Returned _ | Thrown => 0%nat
      | Fatal _ | Undefined => 1%nat
      end.
Proof.
  split; [by rewrite estimate_run|]. split; [by rewrite estimateAndRemove_run|]. split.
  - rewrite getLaserTrack_run. by destruct (laser_tracks_ s !! laser_track_id).
  - unfold processLoopClosure. apply lock_guard_depth.
    unfold icp_step. run_all; depth_leaf.
Qed.

(** X6.  [processLoopClosure] takes the mutex a second time while it holds
    it: on a candidate that passes validation the calling thread holds the
    mutex twice during the submission (in [estimateAndRemove]), which only a
    recursive mutex allows; [estimate] and [estimateAndRemove] called on
    their own hold it once. *)
Theorem processLoopClosure_locks_twice (loop_closure : RelativePose)
    (s : IncrementalEstimator) (track_a track_b : LaserTrack) (measured : SE3)
    (new_factors : NonlinearFactorGraph) (new_values : gmap Key SE3) :
  laser_tracks_ s !! track_id_a loop_closure = Some track_a →
  laser_tracks_ s !! track_id_b loop_closure = Some track_b →
  time_a_ns loop_closure < time_b_ns loop_closure →
  getMinTime track_a ≤ time_a_ns loop_closure ≤ getMaxTime track_a →
  getMinTime track_b ≤ time_b_ns loop_closure ≤ getMaxTime track_b →
  (if do_icp_step_on_loop_closures (params_ s)
   then icp_compute (icp_ s)
          (buildSubMapAroundTime track_b (time_b_ns loop_closure)
                                 (loop_closures_sub_maps_radius (params_ s)))
          (buildSubMapAroundTime track_a (time_a_ns loop_closure)
                                 (loop_closures_sub_maps_radius (params_ s)))
          (T_a_b loop_closure)
   else Some (T_a_b loop_closure)) = Some measured →
  max_depth 0 (events (processLoopClosure loop_closure s)) = 2%nat
  ∧ max_depth 0 (events (estimateAndRemove new_factors new_values s)) = 1%nat
  ∧ max_depth 0 (events (estimate new_factors new_values s)) = 1%nat.
Proof.
  intros Ha Hb Hlt Hbounds_a Hbounds_b Hicp.
  rewrite (processLoopClosure_run _ _ _ _ _ Ha Hb Hlt Hbounds_a Hbounds_b Hicp).
  rewrite estimateAndRemove_run, estimate_run. cbn [events].
  split; [|split; reflexivity].
  destruct (do_icp_step_on_loop_closures (params_ s));
    cbn [app max_depth pred Nat.max]; rewrite max_depth_sinks; reflexivity.
Qed.

(** ** [registerPrior], all cases *)

(** X7.  What [registerPrior] does is decided by the indices the backend
    reports for the submission.  One index: the call returns the backend's
    estimate after two further [update] calls, and the factor index held by
    the estimator becomes that index for worker 1 and stays as it was for any
    other worker.  Any other number of indices: the call aborts after the
    first [update].  It never throws and never indexes out of range. *)
Theorem registerPrior_by_reported_indices (new_factors : NonlinearFactorGraph)
    (new_values : gmap Key SE3) (worker_id : nat) (s : IncrementalEstimator) :
  match newFactorsIndices (ISAM2_update new_factors new_values [] (isam2_ s)).1 with
  | [index] =>
      outcome (registerPrior new_factors new_values worker_id s) =
        Returned (ISAM2_calculateEstimate
                    (isam2_ (final (registerPrior new_factors new_values worker_id s))))
      ∧ factor_indice_to_remove_ (final (registerPrior new_factors new_values worker_id s))
          = (if (worker_id =? 1)%nat then index else factor_indice_to_remove_ s)
      ∧ events (registerPrior new_factors new_values worker_id s) =
          [Update new_factors new_values []]
          ++ (if (worker_id =? 1)%nat then [SlotWrite index] else [])
          ++ [Update [] ∅ []; Update [] ∅ []; CalculateEstimate]
  | _ =>
      outcome (registerPrior new_factors new_values worker_id s) = Fatal EmptyString
      ∧ events (registerPrior new_factors new_values worker_id s)
          = [Update new_factors new_values []]
  end.
Proof.
  unfold registerPrior. run.
  destruct (newFactorsIndices (ISAM2_update new_factors new_values [] (isam2_ s)).1)
    as [|index [|index' indices]] eqn:Hindices.
  - change (length (@nil nat) =? 1)%nat with false. run. by split.
  - change (length [index] =? 1)%nat with true. run.
    destruct (worker_id =? 1)%nat; run.
    + change ([index] !! 0%nat) with (Some index). run. by repeat split.
    + by repeat split.
  - change (length (index :: index' :: indices) =? 1)%nat with false. run. by split.
Qed.

(** ** Replacing the registered prior *)

Lemma three_updates_slots (new_factors : NonlinearFactorGraph) (new_values : gmap Key SE3)
    (remove : list nat) (b : ISAM2) :
  nonlinearFactors_
    (ISAM2_update [] ∅ [] (ISAM2_update [] ∅ []
       (ISAM2_update new_factors new_values remove b).2).2).2
  = remove_factors remove (nonlinearFactors_ b ++ (Some <$> new_factors)).
Proof.
  cbn [ISAM2_update snd nonlinearFactors_ fmap list_fmap remove_factors foldl].
  by rewrite !app_nil_r.
Qed.

Lemma removed_app (evs1 evs2 : list Event) :
  removed (evs1 ++ evs2) = removed evs1 ++ removed evs2.
Proof. apply flat_map_app. Qed.

Lemma removed_sinks (result : gmap Key SE3) (ids : list nat) :
  removed ((λ i, TrackSink i result) <$> ids) = [].
Proof. induction ids as [|i ids IH]; [reflexivity|]. exact IH. Qed.

(** The slots and the count after one removal of a constraint the backend
    holds. *)
Lemma replaced_slot (slots : list (option ExpressionFactor))
    (new_factors : NonlinearFactorGraph) (i : nat) (stale : ExpressionFactor) :
  slots !! i = Some (Some stale) →
  remove_factors [i] (slots ++ (Some <$> new_factors)) !! i = Some None
  ∧ length (filter is_Some (remove_factors [i] (slots ++ (Some <$> new_factors))))
      = (length (filter is_Some slots) + length new_factors - 1)%nat.
Proof.
  intros Hi. cbn [remove_factors foldl].
  pose proof (lookup_app_l_Some _ (Some <$> new_factors) _ _ Hi) as Hlive.
  split.
  - apply list_lookup_insert_eq. by apply lookup_lt_Some in Hlive.
  - pose proof (nrFactors_removed _ _ _ Hlive) as Hcount.
    rewrite nrFactors_new in Hcount. lia.
Qed.


(** X8.  The index worker 1 registers is the one the next [estimateAndRemove]
    removes: after [registerPrior] of one prior by worker 1, a call of
    [estimateAndRemove] asks the backend to remove exactly the index that
    prior was given, the prior's slot is empty afterwards, and the backend
    holds the constraints it held before the registration plus the new
    ones. *)
Theorem registered_prior_is_removed_next (prior : ExpressionFactor)
    (prior_values : gmap Key SE3) (new_factors : NonlinearFactorGraph)
    (new_values : gmap Key SE3) (s : IncrementalEstimator) :
  factor_indice_to_remove_ (final (registerPrior [prior] prior_values 1 s))
    = length (nonlinearFactors_ (isam2_ s))
  ∧ removed (events (estimateAndRemove new_factors new_values
                       (final (registerPrior [prior] prior_values 1 s))))
      = [length (nonlinearFactors_ (isam2_ s))]
  ∧ nonlinearFactors_ (isam2_ (final (estimateAndRemove new_factors new_values
                                  (final (registerPrior [prior] prior_values 1 s)))))
      !! length (nonlinearFactors_ (isam2_ s)) = Some None
  ∧ nrFactors (isam2_ (final (estimateAndRemove new_factors new_values
                                (final (registerPrior [prior] prior_values 1 s)))))
      = (nrFactors (isam2_ s) + length new_factors)%nat.
Proof.
  destruct (registerPrior_anchor_run prior prior_values s) as (_ & Hslot & Hlive & _).
  cbv zeta in Hslot, Hlive.
  set (registered := final (registerPrior [prior] prior_values 1 s)) in *.
  assert (nrFactors (isam2_ registered) = S (nrFactors (isam2_ s))) as Hcount.
  { subst registered. unfold registerPrior. run.
    change ((length (newFactorsIndices
              (ISAM2_update [prior] prior_values [] (isam2_ s)).1) =? 1)%nat) with true.
    change ((1 =? 1)%nat) with true. run.
    change (newFactorsIndices (ISAM2_update [prior] prior_values [] (isam2_ s)).1 !! 0%nat)
      with (Some (length (nonlinearFactors_ (isam2_ s)))).
    run. cbn [final prepend M_ret isam2_ set_isam2 set_factor_indice_to_remove].
    unfold nrFactors. rewrite three_updates_slots. cbn [remove_factors foldl].
    rewrite nrFactors_new. cbn [length]. lia. }
  rewrite estimateAndRemove_run. cbn [final events isam2_ set_isam2].
  unfold nrFactors in *. rewrite three_updates_slots, Hslot.
  destruct (replaced_slot _ new_factors _ _ Hlive) as [Hgone Hless].
  split; [reflexivity|]. split; [reflexivity|]. split; [exact Hgone|].
  rewrite Hless, Hcount. lia.
Qed.

(** X11.  A loop closure uses up the registered prior and does not renew it:
    when the factor index held by the estimator names a constraint the
    backend holds, a validated [processLoopClosure] asks the backend to remove
    exactly that index, leaves the index itself as it was, and afterwards that
    slot of the backend is empty while the number of constraints is the same
    as before (one added, one removed). *)
Theorem processLoopClosure_replaces_the_prior (loop_closure : RelativePose)
    (s : IncrementalEstimator) (track_a track_b : LaserTrack) (measured : SE3)
    (stale : ExpressionFactor) :
  laser_tracks_ s !! track_id_a loop_closure = Some track_a →
  laser_tracks_ s !! track_id_b loop_closure = Some track_b →
  time_a_ns loop_closure < time_b_ns loop_closure →
  getMinTime track_a ≤ time_a_ns loop_closure ≤ getMaxTime track_a →
  getMinTime track_b ≤ time_b_ns loop_closure ≤ getMaxTime track_b →
  (if do_icp_step_on_loop_closures (params_ s)
   then icp_compute (icp_ s)
          (buildSubMapAroundTime track_b (time_b_ns loop_closure)
                                 (loop_closures_sub_maps_radius (params_ s)))
          (buildSubMapAroundTime track_a (time_a_ns loop_closure)
                                 (loop_closures_sub_maps_radius (params_ s)))
          (T_a_b loop_closure)
   else Some (T_a_b loop_closure)) = Some measured →
  nonlinearFactors_ (isam2_ s) !! factor_indice_to_remove_ s = Some (Some stale) →
  removed (events (processLoopClosure loop_closure s)) = [factor_indice_to_remove_ s]
  ∧ factor_indice_to_remove_ (final (processLoopClosure loop_closure s))
      = factor_indice_to_remove_ s
  ∧ nonlinearFactors_ (isam2_ (final (processLoopClosure loop_closure s)))
      !! factor_indice_to_remove_ s = Some None
  ∧ nrFactors (isam2_ (final (processLoopClosure loop_closure s)))
      = nrFactors (isam2_ s).
Proof.
  intros Ha Hb Hlt Hbounds_a Hbounds_b Hicp Hlive.
  rewrite (processLoopClosure_run _ _ _ _ _ Ha Hb Hlt Hbounds_a Hbounds_b Hicp).
  cbn [final events isam2_ set_isam2 set_laser_tracks factor_indice_to_remove_].
  unfold nrFactors. rewrite three_updates_slots.
  match goal with
  | |- context [remove_factors _ (_ ++ (Some <$> ?fs))] =>
      destruct (replaced_slot _ fs _ _ Hlive) as [Hgone Hless]
  end.
  split.
  { rewrite !removed_app, removed_sinks.
    by destruct (do_icp_step_on_loop_closures (params_ s)). }
  split; [reflexivity|]. split; [exact Hgone|].
  rewrite Hless. cbn [length]. lia.
Qed.

(** ** A matcher that throws *)

(** X9.  An exception of the matcher reaches the caller before anything has
    been submitted: on a candidate that passes validation, with the ICP step
    switched on and the matcher throwing, [processLoopClosure] ends with that
    exception, the estimator is exactly as it was and no [update] call has
    been made.  With the ICP step switched off the call never ends with an
    exception. *)
Theorem processLoopClosure_matcher_exception (loop_closure : RelativePose)
    (s : IncrementalEstimator) :
  (∀ track_a track_b : LaserTrack,
     laser_tracks_ s !! track_id_a loop_closure = Some track_a →
     laser_tracks_ s !! track_id_b loop_closure = Some track_b →
     time_a_ns loop_closure < time_b_ns loop_closure →
     getMinTime track_a ≤ time_a_ns loop_closure ≤ getMaxTime track_a →
     getMinTime track_b ≤ time_b_ns loop_closure ≤ getMaxTime track_b →
     do_icp_step_on_loop_closures (params_ s) = true →
     icp_compute (icp_ s)
       (buildSubMapAroundTime track_b (time_b_ns loop_closure)
                              (loop_closures_sub_maps_radius (params_ s)))
       (buildSubMapAroundTime track_a (time_a_ns loop_closure)
                              (loop_closures_sub_maps_radius (params_ s)))
       (T_a_b loop_closure) = None →
     outcome (processLoopClosure loop_closure s) = Thrown
     ∧ final (processLoopClosure loop_closure s) = s
     ∧ Forall (λ e, is_update e = false) (events (processLoopClosure loop_closure s)))
  ∧ (do_icp_step_on_loop_closures (params_ s) = false →
     outcome (processLoopClosure loop_closure s) ≠ Thrown).
Proof.
  split.
  - intros track_a track_b Ha Hb Hlt [Hamin Hamax] [Hbmin Hbmax] Hdo Hicp.
    apply Z.ltb_lt in Hlt. apply Z.leb_le in Hamin, Hamax, Hbmin, Hbmax.
    unfold processLoopClosure, icp_step. run.
    rewrite Hlt. run. rewrite Hamin. run. rewrite Hamax. run.
    rewrite Hbmin. run. rewrite Hbmax. run. rewrite Hdo. run. rewrite Hicp. run.
    cbn [outcome final events prepend app].
    split; [reflexivity|]. split; [reflexivity|]. by repeat constructor.
  - intros Hdo. unfold processLoopClosure, icp_step.
    run_all; first [congruence | cbn [outcome prepend M_ret]; discriminate].
Qed.

End Properties.

(** ** The theorems at the small instance *)

Lemma processLoopClosure_rejects_invalid_times_witness :
  ¬ (time_a_ns Demo.late_candidate < time_b_ns Demo.late_candidate
     ∧ getMinTime Demo.track_0 ≤ time_a_ns Demo.late_candidate ≤ getMaxTime Demo.track_0
     ∧ getMinTime Demo.track_1 ≤ time_b_ns Demo.late_candidate ≤ getMaxTime Demo.track_1)
  ∧ outcome (processLoopClosure Demo.late_candidate Demo.tracking) = Fatal invalid_time
  ∧ final (processLoopClosure Demo.late_candidate Demo.tracking) = Demo.tracking
  ∧ isam2_ (final (processLoopClosure Demo.late_candidate Demo.tracking))
      = isam2_ Demo.tracking
  ∧ Forall (λ e, is_update e = false)
           (events (processLoopClosure Demo.late_candidate Demo.tracking)).
Proof.
  split; [simpl; lia|].
  apply (processLoopClosure_rejects_invalid_times
           Demo.late_candidate Demo.tracking Demo.track_0 Demo.track_1).
  - reflexivity.
  - reflexivity.
  - simpl. lia.
Defined.



Lemma factor_index_written_only_by_worker_1_witness :
  factor_indice_to_remove_
    (final (perform (OpRegisterPrior [Demo.prior] ∅ 2) Demo.tracking))
    = factor_indice_to_remove_ Demo.tracking
  ∧ Forall (λ e, is_slot_write e = false)
           (events (perform (OpRegisterPrior [Demo.prior] ∅ 2) Demo.tracking)).
Proof.
  apply (factor_index_written_only_by_worker_1
           (OpRegisterPrior [Demo.prior] ∅ 2) Demo.tracking).
  reflexivity.
Defined.

Lemma registerPrior_aborts_on_index_count_witness :
  outcome (registerPrior [] ∅ 1 Demo.tracking) = Fatal EmptyString
  ∧ factor_indice_to_remove_ (final (registerPrior [] ∅ 1 Demo.tracking))
      = factor_indice_to_remove_ Demo.tracking
  ∧ events (registerPrior [] ∅ 1 Demo.tracking) = [Update [] ∅ []].
Proof.
  apply (registerPrior_aborts_on_index_count [] ∅ 1%nat Demo.tracking).
  simpl. lia.
Defined.

Lemma processLoopClosure_builds_one_factor_witness :
  outcome (processLoopClosure Demo.candidate Demo.anchored) = Returned ()
  ∧ submitted (events (processLoopClosure Demo.candidate Demo.anchored)) =
      [ {| factor_noise := loop_closure_noise_model_ Demo.anchored;
           factor_measured := 0;
           factor_expression :=
             Compose (Inverse (getValueExpression Demo.track_0 (time_a_ns Demo.candidate)))
                     (getValueExpression Demo.track_1 (time_b_ns Demo.candidate)) |} ]
  ∧ ∀ (values : gmap Key Z) (pose_a pose_b : Z),
      values !! (laser_track_id Demo.track_0, time_a_ns Demo.candidate) = Some pose_a →
      values !! (laser_track_id Demo.track_1, time_b_ns Demo.candidate) = Some pose_b →
      (eval values <$> (factor_expression <$>
         submitted (events (processLoopClosure Demo.candidate Demo.anchored))))
      = [Some (se3_compose (se3_inverse pose_a) pose_b)].
Proof.
  apply (processLoopClosure_builds_one_factor
           Demo.candidate Demo.anchored Demo.track_0 Demo.track_1 0).
  - reflexivity.
  - reflexivity.
  - simpl. lia.
  - compute_done.
  - compute_done.
  - reflexivity.
Defined.

Lemma processLoopClosure_updates_every_track_witness :
  outcome (processLoopClosure Demo.candidate Demo.anchored) = Returned ()
  ∧ laser_tracks_ (final (processLoopClosure Demo.candidate Demo.anchored)) =
      updateFromGTSAMValues
        (ISAM2_calculateEstimate
           (isam2_ (final (processLoopClosure Demo.candidate Demo.anchored))))
      <$> laser_tracks_ Demo.anchored
  ∧ sinks (events (processLoopClosure Demo.candidate Demo.anchored)) =
      (λ i, (i, ISAM2_calculateEstimate
                  (isam2_ (final (processLoopClosure Demo.candidate Demo.anchored)))))
      <$> seq 0 (length (laser_tracks_ Demo.anchored))
  ∧ ∃ before : list Event,
      events (processLoopClosure Demo.candidate Demo.anchored) =
        before
        ++ ((λ i, TrackSink i
               (ISAM2_calculateEstimate
                  (isam2_ (final (processLoopClosure Demo.candidate Demo.anchored)))))
              <$> seq 0 (length (laser_tracks_ Demo.anchored)))
        ++ [Unlock]
      ∧ length (submitted before) = 1%nat.
Proof.
  apply (processLoopClosure_updates_every_track
           Demo.candidate Demo.anchored Demo.track_0 Demo.track_1 0).
  - reflexivity.
  - reflexivity.
  - simpl. lia.
  - compute_done.
  - compute_done.
  - reflexivity.
Defined.

Lemma processLoopClosure_track_ids_unchecked_witness :
  outcome (processLoopClosure Demo.candidate Demo.tracking) ≠ Undefined
  ∧ outcome (processLoopClosure Demo.stray_candidate Demo.tracking) = Undefined.
Proof.
  split.
  - apply (proj1 (processLoopClosure_track_ids_unchecked Demo.candidate Demo.tracking)).
    + simpl. lia.
    + simpl. lia.
  - apply (proj2 (proj2 (processLoopClosure_track_ids_unchecked
                           Demo.stray_candidate Demo.tracking)) Demo.track_0).
    + simpl. lia.
    + reflexivity.
    + compute_done.
    + simpl. lia.
Defined.

(** C3, as the specification words it, fails: the relinearization options of
    the parameters do not reach the backend.  With skip 2 and threshold 1/2 in the parameters the
    backend is still built with skip 1 and threshold 1/1000. *)
Lemma construction_ignores_relinearization_options :
  ¬ (relinearizeSkip (isam2_params (isam2_
       (IncrementalEstimator_new (SE3 := Z) (λ _, None) 0 Demo.parameters 2)))
       = relinearize_skip Demo.parameters
     ∧ relinearizeThreshold (isam2_params (isam2_
       (IncrementalEstimator_new (SE3 := Z) (λ _, None) 0 Demo.parameters 2)))
       = relinearize_threshold Demo.parameters).
Proof. intros [Hskip _]. discriminate Hskip. Qed.

(** [estimateAndRemove] does not refresh the index it removes: called twice in
    a row it asks the backend, the second time, to empty a slot that is empty
    already, and the count then grows by the full number of new constraints. *)
Example second_estimateAndRemove_removes_nothing :
  nrFactors (isam2_ Demo.anchored) = 1%nat
  ∧ nrFactors (isam2_ (final (estimateAndRemove [] ∅ Demo.anchored))) = 0%nat
  ∧ nrFactors (isam2_ (final (estimateAndRemove [Demo.prior] ∅
                  (final (estimateAndRemove [] ∅ Demo.anchored))))) = 1%nat.
Proof. repeat split; vm_compute; reflexivity. Qed.

(** With the ICP step switched on, the factor measures what the matcher
    returns (here the candidate's transform shifted by one), not the
    candidate's own transform. *)
Example icp_step_replaces_the_measurement :
  factor_measured <$>
    submitted (events (processLoopClosure Demo.candidate
      (mkIncrementalEstimator
         (mkEstimatorParams [(1 # 10)%Q] true true 3 (mkLaserTrackParams "icp.yaml")
                            2 (1 # 2)%Q)
         2 (isam2_ Demo.anchored) (laser_tracks_ Demo.anchored)
         (loop_closure_noise_model_ Demo.anchored) setDefault
         (factor_indice_to_remove_ Demo.anchored))))
  = [1].
Proof. vm_compute. reflexivity. Qed.

(** ** Further theorems at the small instance *)

Lemma getLaserTrack_checks_bounds_witness :
  (1 < length (laser_tracks_ Demo.tracking))%nat
  ∧ outcome (getLaserTrack 1 Demo.tracking) = Returned Demo.track_1
  ∧ final (getLaserTrack 1 Demo.tracking) = Demo.tracking
  ∧ TrackAccess 1 ∈ events (getLaserTrack 1 Demo.tracking).
Proof.
  destruct (getLaserTrack_checks_bounds 1%nat Demo.tracking) as (Hout & Hfinal & Hin).
  assert (1 < length (laser_tracks_ Demo.tracking))%nat as Hlt by (simpl; lia).
  split; [exact Hlt|]. split; [exact Hout|]. split; [exact Hfinal|].
  exact (proj2 Hin Hlt).
Defined.

Lemma processLoopClosure_locks_twice_witness :
  max_depth 0 (events (processLoopClosure Demo.candidate Demo.anchored)) = 2%nat
  ∧ max_depth 0 (events (estimateAndRemove [Demo.prior] ∅ Demo.anchored)) = 1%nat
  ∧ max_depth 0 (events (estimate [Demo.prior] ∅ Demo.anchored)) = 1%nat.
Proof.
  apply (processLoopClosure_locks_twice
           Demo.candidate Demo.anchored Demo.track_0 Demo.track_1 0 [Demo.prior] ∅).
  - reflexivity.
  - reflexivity.
  - simpl. lia.
  - compute_done.
  - compute_done.
  - reflexivity.
Defined.

Lemma processLoopClosure_replaces_the_prior_witness :
  removed (events (processLoopClosure Demo.candidate Demo.anchored))
    = [factor_indice_to_remove_ Demo.anchored]
  ∧ factor_indice_to_remove_ (final (processLoopClosure Demo.candidate Demo.anchored))
      = factor_indice_to_remove_ Demo.anchored
  ∧ nonlinearFactors_ (isam2_ (final (processLoopClosure Demo.candidate Demo.anchored)))
      !! factor_indice_to_remove_ Demo.anchored = Some None
  ∧ nrFactors (isam2_ (final (processLoopClosure Demo.candidate Demo.anchored)))
      = nrFactors (isam2_ Demo.anchored).
Proof.
  apply (processLoopClosure_replaces_the_prior
           Demo.candidate Demo.anchored Demo.track_0 Demo.track_1 0 Demo.prior).
  - reflexivity.
  - reflexivity.
  - simpl. lia.
  - compute_done.
  - compute_done.
  - reflexivity.
  - reflexivity.
Defined.

Lemma processLoopClosure_matcher_exception_witness :
  outcome (processLoopClosure (collaborators := Demo.failing_matcher)
             Demo.candidate Demo.refining) = Thrown
  ∧ final (processLoopClosure (collaborators := Demo.failing_matcher)
             Demo.candidate Demo.refining) = Demo.refining
  ∧ Forall (λ e, is_update e = false)
           (events (processLoopClosure (collaborators := Demo.failing_matcher)
                      Demo.candidate Demo.refining)).
Proof.
  apply (proj1 (processLoopClosure_matcher_exception
                  (collaborators := Demo.failing_matcher) Demo.candidate Demo.refining)
               Demo.track_0 Demo.track_1).
  - reflexivity.
  - reflexivity.
  - simpl. lia.
  - compute_done.
  - compute_done.
  - reflexivity.
  - reflexivity.
Defined.
